(** * upchain: the trade-journal state container of [src/App.tsx]

    A shallow embedding of the state container of the [App] component:
    the reducer-like event handlers over [{ sessions, activeSessionId }]
    and the JSON export/import path, followed by the properties the
    specification states about them. *)

From Stdlib Require Import String Ascii List ZArith Bool Lia.
From Stdlib Require Import DecimalString.
From Stdlib Require DecimalZ DecimalFacts DecimalPos DecimalNat.
Import ListNotations.
Open Scope string_scope.
Open Scope list_scope.
Open Scope nat_scope.

Set Implicit Arguments.

(** ** JavaScript values reachable through JSON *)

(** The values [JSON.parse] can produce and [JSON.stringify] can print.
    Strings are sequences of code units below 256; numbers are the
    integers (the handlers never compute with a number, floating point
    is outside the embedding).  An object is the list of its own
    properties in enumeration order. *)
Unset Elimination Schemes.
Inductive value : Type :=
| VNull
| VBool (b : bool)
| VNum (n : Z)
| VStr (s : string)
| VArr (items : list value)
| VObj (props : list (string * value)).
Set Elimination Schemes.

(** Induction over a value and, through [Forall], over the elements of
    an array and the property values of an object. *)
Section ValueInduction.
Variable P : value -> Prop.
Hypothesis case_null : P VNull.
Hypothesis case_bool : forall b, P (VBool b).
Hypothesis case_num : forall n, P (VNum n).
Hypothesis case_str : forall s, P (VStr s).
Hypothesis case_arr : forall items, Forall P items -> P (VArr items).
Hypothesis case_obj :
  forall props, Forall (fun kv => P (snd kv)) props -> P (VObj props).

Fixpoint value_ind (v : value) : P v :=
  match v with
  | VNull => case_null
  | VBool b => case_bool b
  | VNum n => case_num n
  | VStr s => case_str s
  | VArr items =>
      case_arr
        ((fix all (l : list value) : Forall P l :=
            match l with
            | [] => Forall_nil P
            | x :: l' => Forall_cons x (value_ind x) (all l')
            end) items)
  | VObj props =>
      case_obj
        ((fix all (l : list (string * value))
            : Forall (fun kv => P (snd kv)) l :=
            match l with
            | [] => Forall_nil _
            | kv :: l' => Forall_cons kv (value_ind (snd kv)) (all l')
            end) props)
  end.
End ValueInduction.

(** Own-property lookup in an object's property list; [None] is
    JavaScript's [undefined]. *)
Fixpoint lookup (k : string) (props : list (string * value)) : option value :=
  match props with
  | [] => None
  | (k', v) :: rest => if String.eqb k k' then Some v else lookup k rest
  end.

(** ** The data model ([./types], imported by [App.tsx]) *)

(** Modelled from the spec: the [Trade] interface of [src/types.ts] is not
    among the sources.  [App.tsx] reads only [id]; the glossary calls a
    trade "a single logged trade entry with associated metadata and
    optional reflection notes", kept here as the remaining properties of
    the object. *)
Module Trade.
Record t : Type := Make { id : string; others : list (string * value) }.
End Trade.

(** Modelled from the spec: the [Session] interface of [src/types.ts] is not
    among the sources.  [App.tsx] reads [id], [name], [date] and [trades]
    ("a named, dated collection of trades"); any further property is in
    [others]. *)
Module Session.
Record t : Type := Make {
  id : string;
  name : string;
  date : string;
  trades : list Trade.t;
  others : list (string * value)
}.

(** [{ ...s, trades: ts }] *)
Definition with_trades (s : t) (ts : list Trade.t) : t :=
  {| id := id s; name := name s; date := date s; trades := ts;
     others := others s |}.
End Session.

(** The one in-memory state object, [{ sessions, activeSessionId }];
    [activeSessionId] is a string or [null]. *)
Record AppState : Type := {
  sessions : list Session.t;
  activeSessionId : option string
}.

(** The two hooks the handlers write: [state] and [selectedTrade]. *)
Record App : Type := {
  state : AppState;
  selectedTrade : option Trade.t
}.

(** [setState(st)] and [setSelectedTrade(sel)], as seen at the next render. *)
Definition setState (app : App) (st : AppState) : App :=
  {| state := st; selectedTrade := selectedTrade app |}.

Definition setSelectedTrade (app : App) (sel : option Trade.t) : App :=
  {| state := state app; selectedTrade := sel |}.

(** [a === b] for a string [a] and a [string | null] [b]. *)
Definition strict_eq (a : string) (b : option string) : bool :=
  match b with
  | Some b' => String.eqb a b'
  | None => false
  end.

(** ** The handlers *)

(** [state.sessions.find((s) => s.id === state.activeSessionId)] *)
Definition activeSession (st : AppState) : option Session.t :=
  find (fun s => strict_eq (Session.id s) (activeSessionId st)) (sessions st).

Definition handleCreateSession (app : App) (session : Session.t) : App :=
  setState app
    {| sessions := sessions (state app) ++ [session];
       activeSessionId := Some (Session.id session) |}.

Definition handleSelectSession (app : App) (sessionId : string) : App :=
  setSelectedTrade
    (setState app
       {| sessions := sessions (state app);
          activeSessionId := Some sessionId |})
    None.

Definition handleDeleteSession (app : App) (sessionId : string) : App :=
  let updatedSessions :=
    filter (fun s => negb (String.eqb (Session.id s) sessionId))
           (sessions (state app)) in
  let newActiveId :=
    if strict_eq sessionId (activeSessionId (state app))
    then (if 0 <? length updatedSessions
          then option_map Session.id (nth_error updatedSessions 0)
          else None)
    else activeSessionId (state app) in
  setSelectedTrade
    (setState app
       {| sessions := updatedSessions; activeSessionId := newActiveId |})
    None.

Definition handleAddTrade (app : App) (trade : Trade.t) : App :=
  match activeSession (state app) with
  | None => app
  | Some active =>
      let updatedSessions :=
        map (fun s =>
               if String.eqb (Session.id s) (Session.id active)
               then Session.with_trades s (Session.trades s ++ [trade])
               else s)
            (sessions (state app)) in
      setSelectedTrade
        (setState app
           {| sessions := updatedSessions;
              activeSessionId := activeSessionId (state app) |})
        (Some trade)
  end.

Definition handleUpdateTrade (app : App) (updatedTrade : Trade.t) : App :=
  match activeSession (state app) with
  | None => app
  | Some active =>
      let updatedSessions :=
        map (fun s =>
               if String.eqb (Session.id s) (Session.id active)
               then Session.with_trades s
                      (map (fun t =>
                              if String.eqb (Trade.id t) (Trade.id updatedTrade)
                              then updatedTrade else t)
                           (Session.trades s))
               else s)
            (sessions (state app)) in
      setSelectedTrade
        (setState app
           {| sessions := updatedSessions;
              activeSessionId := activeSessionId (state app) |})
        (Some updatedTrade)
  end.

Definition handleDeleteTrade (app : App) (tradeId : string) : App :=
  match activeSession (state app) with
  | None => app
  | Some active =>
      let updatedSessions :=
        map (fun s =>
               if String.eqb (Session.id s) (Session.id active)
               then Session.with_trades s
                      (filter (fun t => negb (String.eqb (Trade.id t) tradeId))
                              (Session.trades s))
               else s)
            (sessions (state app)) in
      setSelectedTrade
        (setState app
           {| sessions := updatedSessions;
              activeSessionId := activeSessionId (state app) |})
        None
  end.

(** ** The JSON built-ins

    [JSON.stringify(v, null, 2)] and [JSON.parse] of ECMA-262, on the
    values above.  A thrown [SyntaxError] is [None].  Within the values
    above: a number with a fraction or an exponent and an escape beyond
    [\u00ff] are syntax errors here, and the properties of a parsed
    object are in the order of the text (JavaScript enumerates array-index
    keys first). *)
Module JSON.

Definition LF : string := String (ascii_of_nat 10) "".
Definition dquote : ascii := ascii_of_nat 34.
Definition backslash : ascii := ascii_of_nat 92.

(** The gap of [JSON.stringify(_, null, 2)]: two spaces. *)
Definition gap : string := "  ".

(** *** Printing *)

Definition hex_digit (n : nat) : ascii :=
  match String.get n "0123456789abcdef" with
  | Some c => c
  | None => "0"%char
  end.

(** [UnicodeEscape]: a backslash, [u] and four lowercase hex digits. *)
Definition UnicodeEscape (c : ascii) : string :=
  let n := nat_of_ascii c in
  String backslash
    ("u00" ++ String (hex_digit (n / 16)) (String (hex_digit (n mod 16)) ""))%string.

Definition quote_char (c : ascii) : string :=
  let n := nat_of_ascii c in
  if n =? 8 then String backslash "b"
  else if n =? 9 then String backslash "t"
  else if n =? 10 then String backslash "n"
  else if n =? 12 then String backslash "f"
  else if n =? 13 then String backslash "r"
  else if n =? 34 then String backslash (String dquote "")
  else if n =? 92 then String backslash (String backslash "")
  else if n <? 32 then UnicodeEscape c
  else String c "".

Fixpoint quote_chars (s : string) : string :=
  match s with
  | EmptyString => ""
  | String c rest => (quote_char c ++ quote_chars rest)%string
  end.

Definition QuoteJSONString (s : string) : string :=
  String dquote (quote_chars s ++ String dquote "")%string.

(** [Number::toString] on an integer. *)
Definition number_to_string (n : Z) : string :=
  NilZero.string_of_int (Z.to_int n).

(** [SerializeJSONProperty] with [SerializeJSONArray] and
    [SerializeJSONObject]; [indent] is the current indentation. *)
Fixpoint serialize (indent : string) (v : value) : string :=
  match v with
  | VNull => "null"
  | VBool b => if b then "true" else "false"
  | VNum n => number_to_string n
  | VStr s => QuoteJSONString s
  | VArr items =>
      let stepback := indent in
      let indent := (indent ++ gap)%string in
      match items with
      | [] => "[]"
      | _ =>
          let separator := ("," ++ LF ++ indent)%string in
          ("[" ++ LF ++ indent
             ++ String.concat separator (map (serialize indent) items)
             ++ LF ++ stepback ++ "]")%string
      end
  | VObj props =>
      let stepback := indent in
      let indent := (indent ++ gap)%string in
      match props with
      | [] => "{}"
      | _ =>
          let separator := ("," ++ LF ++ indent)%string in
          ("{" ++ LF ++ indent
             ++ String.concat separator
                  (map (fun kv =>
                          QuoteJSONString (fst kv) ++ ": "
                            ++ serialize indent (snd kv))
                       props)
             ++ LF ++ stepback ++ "}")%string
      end
  end.

Definition stringify (v : value) : string := serialize "" v.

(** *** Parsing *)

(** JSON white space: space, tab, line feed, carriage return. *)
Definition is_ws (c : ascii) : bool :=
  let n := nat_of_ascii c in
  (n =? 32) || (n =? 9) || (n =? 10) || (n =? 13).

Fixpoint skip_ws (s : string) : string :=
  match s with
  | String c rest => if is_ws c then skip_ws rest else s
  | EmptyString => s
  end.

(** [expect lit s]: [s] without its prefix [lit]. *)
Fixpoint expect (lit s : string) : option string :=
  match lit, s with
  | EmptyString, _ => Some s
  | String a lit', String b s' =>
      if Ascii.eqb a b then expect lit' s' else None
  | String _ _, EmptyString => None
  end.

Definition hex_value (c : ascii) : option nat :=
  let n := nat_of_ascii c in
  if (48 <=? n) && (n <=? 57) then Some (n - 48)
  else if (97 <=? n) && (n <=? 102) then Some (n - 87)
  else if (65 <=? n) && (n <=? 70) then Some (n - 55)
  else None.

(** The code unit of [\uXXXX]; code units from 256 on are outside the
    embedding's strings. *)
Definition unicode_unescape (h1 h2 h3 h4 : ascii) : option ascii :=
  match hex_value h1, hex_value h2, hex_value h3, hex_value h4 with
  | Some a, Some b, Some c, Some d =>
      let code := ((a * 16 + b) * 16 + c) * 16 + d in
      if code <? 256 then Some (ascii_of_nat code) else None
  | _, _, _, _ => None
  end.

(** The character a single-character escape stands for. *)
Definition unescape (e : ascii) : option ascii :=
  let n := nat_of_ascii e in
  if n =? 34 then Some dquote
  else if n =? 92 then Some backslash
  else if n =? 47 then Some "/"%char
  else if n =? 98 then Some (ascii_of_nat 8)
  else if n =? 102 then Some (ascii_of_nat 12)
  else if n =? 110 then Some (ascii_of_nat 10)
  else if n =? 114 then Some (ascii_of_nat 13)
  else if n =? 116 then Some (ascii_of_nat 9)
  else None.

Definition cons_char (c : ascii) (r : option (string * string))
  : option (string * string) :=
  match r with
  | Some (s, rest) => Some (String c s, rest)
  | None => None
  end.

(** The characters of a string literal after its opening quote, up to
    and including the closing quote. *)
Fixpoint parse_chars (s : string) : option (string * string) :=
  match s with
  | EmptyString => None
  | String c rest =>
      if Ascii.eqb c dquote then Some ("", rest)
      else if Ascii.eqb c backslash then
        match rest with
        | String e rest' =>
            if Ascii.eqb e "u" then
              match rest' with
              | String h1 (String h2 (String h3 (String h4 rest''))) =>
                  match unicode_unescape h1 h2 h3 h4 with
                  | Some c' => cons_char c' (parse_chars rest'')
                  | None => None
                  end
              | _ => None
              end
            else
              match unescape e with
              | Some c' => cons_char c' (parse_chars rest')
              | None => None
              end
        | EmptyString => None
        end
      else if nat_of_ascii c <? 32 then None
      else cons_char c (parse_chars rest)
  end.

Definition digit_of (c : ascii) : option (Decimal.uint -> Decimal.uint) :=
  let n := nat_of_ascii c in
  if n =? 48 then Some Decimal.D0
  else if n =? 49 then Some Decimal.D1
  else if n =? 50 then Some Decimal.D2
  else if n =? 51 then Some Decimal.D3
  else if n =? 52 then Some Decimal.D4
  else if n =? 53 then Some Decimal.D5
  else if n =? 54 then Some Decimal.D6
  else if n =? 55 then Some Decimal.D7
  else if n =? 56 then Some Decimal.D8
  else if n =? 57 then Some Decimal.D9
  else None.

(** The longest run of decimal digits at the head of [s]. *)
Fixpoint scan_digits (s : string) : Decimal.uint * string :=
  match s with
  | String c rest =>
      match digit_of c with
      | Some d => let (ds, rest') := scan_digits rest in (d ds, rest')
      | None => (Decimal.Nil, s)
      end
  | EmptyString => (Decimal.Nil, s)
  end.

(** The integer part of a JSON number: [0], or a non-zero digit and
    further digits. *)
Definition parse_int (s : string) : option (Decimal.uint * string) :=
  match s with
  | String c rest =>
      match digit_of c with
      | Some d =>
          if Ascii.eqb c "0" then Some (Decimal.D0 Decimal.Nil, rest)
          else let (ds, rest') := scan_digits rest in Some (d ds, rest')
      | None => None
      end
  | EmptyString => None
  end.

(** A JSON number without fraction or exponent; a fraction or an
    exponent is left in the rest, where no caller accepts it. *)
Definition parse_number (s : string) : option (value * string) :=
  match s with
  | String c rest =>
      if Ascii.eqb c "-" then
        match parse_int rest with
        | Some (d, rest') => Some (VNum (Z.of_int (Decimal.Neg d)), rest')
        | None => None
        end
      else
        match parse_int s with
        | Some (d, rest') => Some (VNum (Z.of_int (Decimal.Pos d)), rest')
        | None => None
        end
  | EmptyString => None
  end.

(** [CreateDataProperty]: a repeated key keeps its place and takes the
    later value. *)
Fixpoint put (k : string) (v : value) (props : list (string * value))
  : list (string * value) :=
  match props with
  | [] => [(k, v)]
  | (k', v') :: rest =>
      if String.eqb k k' then (k', v) :: rest else (k', v') :: put k v rest
  end.

Definition object_of_members (ms : list (string * value)) : value :=
  VObj (fold_left (fun props kv => put (fst kv) (snd kv) props) ms []).

Definition with_value (v : value) (r : option string)
  : option (value * string) :=
  match r with
  | Some rest => Some (v, rest)
  | None => None
  end.

(** Recursive descent, one level at a time: a JSON value, the elements
    of an array after its bracket, the members of an object after its
    brace.  The calls one level down are the arguments. *)
Definition value_level
    (elements : string -> option (list value * string))
    (members : string -> option (list (string * value) * string))
    (s : string) : option (value * string) :=
  match skip_ws s with
  | EmptyString => None
  | String c rest =>
      if Ascii.eqb c "n" then with_value VNull (expect "ull" rest)
      else if Ascii.eqb c "t" then
        with_value (VBool true) (expect "rue" rest)
      else if Ascii.eqb c "f" then
        with_value (VBool false) (expect "alse" rest)
      else if Ascii.eqb c dquote then
        match parse_chars rest with
        | Some (str, rest') => Some (VStr str, rest')
        | None => None
        end
      else if Ascii.eqb c "[" then
        match skip_ws rest with
        | String c' rest' =>
            if Ascii.eqb c' "]" then Some (VArr [], rest')
            else
              match elements rest with
              | Some (items, rest'') => Some (VArr items, rest'')
              | None => None
              end
        | EmptyString => None
        end
      else if Ascii.eqb c "{" then
        match skip_ws rest with
        | String c' rest' =>
            if Ascii.eqb c' "}" then Some (VObj [], rest')
            else
              match members rest with
              | Some (ms, rest'') => Some (object_of_members ms, rest'')
              | None => None
              end
        | EmptyString => None
        end
      else parse_number (String c rest)
  end.

Definition elements_level
    (value_ : string -> option (value * string))
    (elements : string -> option (list value * string))
    (s : string) : option (list value * string) :=
  match value_ s with
  | Some (v, rest) =>
      match skip_ws rest with
      | String c rest' =>
          if Ascii.eqb c "," then
            match elements rest' with
            | Some (vs, rest'') => Some (v :: vs, rest'')
            | None => None
            end
          else if Ascii.eqb c "]" then Some ([v], rest')
          else None
      | EmptyString => None
      end
  | None => None
  end.

Definition members_level
    (value_ : string -> option (value * string))
    (members : string -> option (list (string * value) * string))
    (s : string) : option (list (string * value) * string) :=
  match skip_ws s with
  | String q rest =>
      if Ascii.eqb q dquote then
        match parse_chars rest with
        | Some (k, rest1) =>
            match skip_ws rest1 with
            | String colon rest2 =>
                if Ascii.eqb colon ":" then
                  match value_ rest2 with
                  | Some (v, rest3) =>
                      match skip_ws rest3 with
                      | String c rest4 =>
                          if Ascii.eqb c "," then
                            match members rest4 with
                            | Some (ms, rest5) => Some ((k, v) :: ms, rest5)
                            | None => None
                            end
                          else if Ascii.eqb c "}" then Some ([(k, v)], rest4)
                          else None
                      | EmptyString => None
                      end
                  | None => None
                  end
                else None
            | EmptyString => None
            end
        | None => None
        end
      else None
  | EmptyString => None
  end.

(** The descent, [fuel] levels deep. *)
Fixpoint parse_value (fuel : nat) (s : string) : option (value * string) :=
  match fuel with
  | O => None
  | S fuel' => value_level (parse_elements fuel') (parse_members fuel') s
  end

with parse_elements (fuel : nat) (s : string)
  : option (list value * string) :=
  match fuel with
  | O => None
  | S fuel' => elements_level (parse_value fuel') (parse_elements fuel') s
  end

with parse_members (fuel : nat) (s : string)
  : option (list (string * value) * string) :=
  match fuel with
  | O => None
  | S fuel' => members_level (parse_value fuel') (parse_members fuel') s
  end.

(** [JSON.parse(text)]: one value, white space around it, nothing else.
    No descent through [text] is deeper than the fuel given here. *)
Definition parse (text : string) : option value :=
  match parse_value (2 * String.length text + 1) text with
  | Some (v, rest) =>
      match skip_ws rest with
      | EmptyString => Some v
      | String _ _ => None
      end
  | None => None
  end.

End JSON.

(** ** The state as a JavaScript object *)

(** A typed state is, at run time, the object [JSON.stringify] sees. *)
Definition trade_object (t : Trade.t) : value :=
  VObj (("id", VStr (Trade.id t)) :: Trade.others t).

Definition session_object (s : Session.t) : value :=
  VObj ([("id", VStr (Session.id s));
         ("name", VStr (Session.name s));
         ("date", VStr (Session.date s));
         ("trades", VArr (map trade_object (Session.trades s)))]
          ++ Session.others s).

Definition state_object (st : AppState) : value :=
  VObj [("sessions", VArr (map session_object (sessions st)));
        ("activeSessionId",
         match activeSessionId st with
         | Some sessionId => VStr sessionId
         | None => VNull
         end)].

(** No two strings of the list are equal. *)
Fixpoint distinct (keys : list string) : bool :=
  match keys with
  | [] => true
  | k :: rest => negb (existsb (String.eqb k) rest) && distinct rest
  end.

(** A value is an actual JavaScript value when no object in it has two
    properties of one name. *)
Fixpoint well_formed (v : value) : bool :=
  match v with
  | VArr items => forallb well_formed items
  | VObj props =>
      distinct (map fst props)
        && forallb (fun kv => well_formed (snd kv)) props
  | _ => true
  end.

(** The number of nodes of a value, counting an element or a property
    twice: enough fuel for [JSON.parse_value] to read it back. *)
Fixpoint size (v : value) : nat :=
  match v with
  | VArr items => S (list_sum (map (fun x => S (size x)) items))
  | VObj props => S (list_sum (map (fun kv => S (size (snd kv))) props))
  | _ => 1
  end.

(** [JSON.parse_value] reads a printed value back, whatever follows it
    (short of a digit) and at any indentation. *)
Definition reads_back (v : value) : Prop :=
  well_formed v = true ->
  forall indent fuel rest,
    JSON.skip_ws indent = "" ->
    size v <= fuel ->
    JSON.scan_digits rest = (Decimal.Nil, rest) ->
    JSON.parse_value fuel (JSON.serialize indent v ++ rest) = Some (v, rest).

(** ** Export and import *)

(** What the user sees of an import, and the one write to [state]. *)
Inductive effect : Type :=
| Alert (message : string)
| Confirm (message : string)
| ConsoleError
| SetState (importedData : value).

(** [handleExportData]: the name and the text of the downloaded backup;
    [today] is [new Date().toISOString().split('T')[0]].  The anchor
    element that triggers the download is not modelled. *)
Definition handleExportData (st : AppState) (today : string)
  : string * string :=
  let dataStr := JSON.stringify (state_object st) in
  (("trade-tracker-backup-" ++ today ++ ".json")%string, dataStr).

(** [importedData.sessions]: the outer [None] is the [TypeError] of a
    property read on [null], the inner one is [undefined]. *)
Definition sessions_of (importedData : value) : option (option value) :=
  match importedData with
  | VNull => None
  | VObj props => Some (lookup "sessions" props)
  | _ => Some None
  end.

(** [ToBoolean], as [!x] applies it. *)
Definition truthy (x : option value) : bool :=
  match x with
  | None => false
  | Some VNull => false
  | Some (VBool b) => b
  | Some (VNum n) => negb (Z.eqb n 0)
  | Some (VStr s) => negb (String.eqb s "")
  | Some (VArr _) => true
  | Some (VObj _) => true
  end.

Definition Array_isArray (x : option value) : bool :=
  match x with
  | Some (VArr _) => true
  | _ => false
  end.

Definition invalid_message : string := "Invalid backup file format".
Definition success_message : string := "Data imported successfully!".
Definition failure_message : string :=
  "Failed to import data. Please check the file format.".
Definition confirm_message : string :=
  ("This will replace all your current data. Are you sure?"
     ++ JSON.LF ++ JSON.LF
     ++ "Tip: Export your current data first as a backup!")%string.

(** The body of the [try] block of [reader.onload]; [None] is a thrown
    exception.  [confirmed] is the answer [window.confirm] gives when it
    is asked. *)
Definition onload_try (st : AppState) (text : string) (confirmed : bool)
  : option (list effect) :=
  match JSON.parse text with
  | None => None
  | Some importedData =>
      match sessions_of importedData with
      | None => None
      | Some importedSessions =>
          if negb (truthy importedSessions)
             || negb (Array_isArray importedSessions)
          then Some [Alert invalid_message]
          else if 0 <? length (sessions st)
          then
            if negb confirmed then Some [Confirm confirm_message]
            else Some [Confirm confirm_message;
                       SetState importedData;
                       Alert success_message]
          else Some [SetState importedData; Alert success_message]
      end
  end.

(** [handleImportData]: [file] is the text of [event.target.files?.[0]],
    [None] when no file was chosen.  The effects are listed in the order
    they happen. *)
Definition handleImportData (st : AppState) (file : option string)
    (confirmed : bool) : list effect :=
  match file with
  | None => []
  | Some text =>
      match onload_try st text confirmed with
      | Some effects => effects
      | None => [ConsoleError; Alert failure_message]
      end
  end.

(** The value of [state] once the effects have happened. *)
Definition state_after (current : value) (effects : list effect) : value :=
  fold_left (fun st e =>
               match e with
               | SetState importedData => importedData
               | _ => st
               end)
            effects current.

(** [setState] is not called. *)
Definition state_unchanged (effects : list effect) : Prop :=
  forall importedData, ~ In (SetState importedData) effects.

(** ** What the specification says, in its own words *)

(** [removed P old new]: [new] is [old] without exactly the elements that
    satisfy [P]; the others keep their order and are the same elements. *)
Inductive removed (A : Type) (P : A -> Prop) : list A -> list A -> Prop :=
| removed_nil : removed P [] []
| removed_drop x old new : P x -> removed P old new -> removed P (x :: old) new
| removed_keep x old new :
    ~ P x -> removed P old new -> removed P (x :: old) (x :: new).

(** [replaced P y old new]: [new] is [old] with exactly the elements that
    satisfy [P] replaced by [y], length and order kept. *)
Definition replaced (A : Type) (P : A -> Prop) (y : A) (old new : list A)
  : Prop :=
  Forall2 (fun x x' => (P x /\ x' = y) \/ (~ P x /\ x' = x)) old new.

(** [only_active_changed f app app']: the session [find] returns as the
    active one is the single session that differs, its trades becoming
    [f] of them; [activeSessionId] stays. *)
Definition only_active_changed (f : list Trade.t -> list Trade.t)
    (app app' : App) : Prop :=
  forall active,
    activeSession (state app) = Some active ->
    activeSessionId (state app') = activeSessionId (state app) /\
    exists before after,
      sessions (state app) = before ++ active :: after /\
      sessions (state app') =
        before ++ Session.with_trades active (f (Session.trades active))
               :: after.

(** [same_id_changed f app app']: every session that has the active
    session's id has [f] applied to its trades and is otherwise the
    same; every session of another id is the same; [activeSessionId]
    stays. *)
Definition same_id_changed (f : list Trade.t -> list Trade.t)
    (active : Session.t) (app app' : App) : Prop :=
  activeSessionId (state app') = activeSessionId (state app) /\
  Forall2 (fun s s' =>
             (Session.id s = Session.id active /\
              s' = Session.with_trades s (f (Session.trades s)))
             \/ (Session.id s <> Session.id active /\ s' = s))
          (sessions (state app)) (sessions (state app')).

(** The trades of a changed session, as the three handlers compute
    them. *)
Definition append_trade (trade : Trade.t) (ts : list Trade.t) : list Trade.t :=
  ts ++ [trade].

Definition update_trade (updatedTrade : Trade.t) (ts : list Trade.t)
  : list Trade.t :=
  map (fun t =>
         if String.eqb (Trade.id t) (Trade.id updatedTrade)
         then updatedTrade else t) ts.

Definition delete_trade (tradeId : string) (ts : list Trade.t)
  : list Trade.t :=
  filter (fun t => negb (String.eqb (Trade.id t) tradeId)) ts.

(** The sessions of a handler that maps [f] over the trades of the
    sessions with the active id. *)
Definition map_active (f : list Trade.t -> list Trade.t) (active : Session.t)
    (l : list Session.t) : list Session.t :=
  map (fun s =>
         if String.eqb (Session.id s) (Session.id active)
         then Session.with_trades s (f (Session.trades s))
         else s) l.

(** "The parsed value has a [sessions] field that is an array." *)
Definition has_sessions_array (v : value) : Prop :=
  exists props items,
    v = VObj props /\ lookup "sessions" props = Some (VArr items).

(** "Every import that overwrites the current application state is
    preceded by a confirmation dialog." *)
Definition confirmed_before_overwrite (effects : list effect) : Prop :=
  forall importedData,
    In (SetState importedData) effects ->
    exists message before after,
      effects = before ++ Confirm message :: after /\
      In (SetState importedData) after.

(** ** The rest of the component *)

(** [!x] for a [string | null] [x]: [null] and the empty string are
    falsy. *)
Definition falsy (x : option string) : bool :=
  match x with
  | None => true
  | Some s => String.eqb s ""
  end.

Definition quick_add_message : string :=
  "Please select or create a session first".

(** [handleQuickAddTrade]: the new hooks and the alert, if any. *)
Definition handleQuickAddTrade (app : App) (trade : Trade.t)
  : App * list effect :=
  if falsy (activeSessionId (state app))
  then (app, [Alert quick_add_message])
  else (handleAddTrade app trade, []).

(** What [<main>] holds: the report of the selected trade, or else the
    page of the active session, or else the welcome screen. *)
Inductive main_content : Type :=
| TradeReport (trade : Trade.t)
| SessionPage (session : Session.t)
| EmptyState.

Definition main_content_of (app : App) : main_content :=
  match selectedTrade app with
  | Some trade => TradeReport trade
  | None =>
      match activeSession (state app) with
      | Some session => SessionPage session
      | None => EmptyState
      end
  end.

(** [{state.activeSessionId && (<button className="fab" .../>)}] *)
Definition fab_shown (app : App) : bool :=
  negb (falsy (activeSessionId (state app))).

(** [String(n)] for a natural number. *)
Definition String_of_nat (n : nat) : string :=
  NilZero.string_of_uint (Nat.to_uint n).

Fixpoint repeat_char (c : ascii) (n : nat) : string :=
  match n with
  | O => ""
  | S n' => String c (repeat_char c n')
  end.

(** [s.padStart(targetLength, c)] for a one-character pad. *)
Definition padStart (targetLength : nat) (c : ascii) (s : string) : string :=
  (repeat_char c (targetLength - String.length s) ++ s)%string.

(** [dateString] of [handleCreateNewSession], from [estDate.getMonth()],
    [estDate.getDate()] and [estDate.getFullYear()]; the clock and the
    time zone behind them are not modelled. *)
Definition dateString (getMonth getDate getFullYear : nat) : string :=
  let month := padStart 2 "0" (String_of_nat (getMonth + 1)) in
  let day := padStart 2 "0" (String_of_nat getDate) in
  let year := String_of_nat getFullYear in
  (month ++ "." ++ day ++ "." ++ year)%string.

(** [createSession] of [./storage] is not among the sources: a
    parameter. *)
Section NewSession.
Variable createSession : string -> string -> Session.t.

Definition handleCreateNewSession (app : App)
    (getMonth getDate getFullYear : nat) : App :=
  let dateString := dateString getMonth getDate getFullYear in
  let session := createSession dateString dateString in
  handleCreateSession app session.
End NewSession.

(** The events the rendered tree wires to the hooks: the props of
    [SessionSelector], [TradeForm], [TradeList], [TradeReport] and
    [QuickAddModal].  An import is not among them: it stores a parsed
    value, not a typed state. *)
Inductive event : Type :=
| CreateSession (session : Session.t)
| SelectSession (sessionId : string)
| DeleteSession (sessionId : string)
| AddTrade (trade : Trade.t)
| QuickAddTrade (trade : Trade.t)
| UpdateTrade (updatedTrade : Trade.t)
| DeleteTrade (tradeId : string)
| SelectTrade (trade : Trade.t)
| Back.

Definition dispatch (app : App) (e : event) : App :=
  match e with
  | CreateSession session => handleCreateSession app session
  | SelectSession sessionId => handleSelectSession app sessionId
  | DeleteSession sessionId => handleDeleteSession app sessionId
  | AddTrade trade => handleAddTrade app trade
  | QuickAddTrade trade => fst (handleQuickAddTrade app trade)
  | UpdateTrade updatedTrade => handleUpdateTrade app updatedTrade
  | DeleteTrade tradeId => handleDeleteTrade app tradeId
  | SelectTrade trade => setSelectedTrade app (Some trade)
  | Back => setSelectedTrade app None
  end.

Definition run (app : App) (events : list event) : App :=
  fold_left dispatch events app.

(** What the components outside [App.tsx] are taken to do: a created
    session comes with an id no session has, and the selected id is the
    id of a listed session. *)
Definition expected (app : App) (e : event) : Prop :=
  match e with
  | CreateSession session =>
      ~ In (Session.id session) (map Session.id (sessions (state app)))
  | SelectSession sessionId =>
      In sessionId (map Session.id (sessions (state app)))
  | _ => True
  end.

Fixpoint all_expected (app : App) (events : list event) : Prop :=
  match events with
  | [] => True
  | e :: rest => expected app e /\ all_expected (dispatch app e) rest
  end.

(** The session ids are pairwise distinct, and [activeSessionId] is the
    id of a session, or [null] when there is no session. *)
Definition consistent (st : AppState) : Prop :=
  NoDup (map Session.id (sessions st)) /\
  match activeSessionId st with
  | Some sessionId => In sessionId (map Session.id (sessions st))
  | None => sessions st = []
  end.

Definition is_alert (e : effect) : bool :=
  match e with
  | Alert _ => true
  | _ => false
  end.

(** A trade handler that found [active]: [f] over the trades of the
    sessions of its id, and [sel] as the selected trade. *)
Definition trade_handler (f : list Trade.t -> list Trade.t)
    (sel : option Trade.t) (active : Session.t) (app : App) : App :=
  setSelectedTrade
    (setState app
       {| sessions := map_active f active (sessions (state app));
          activeSessionId := activeSessionId (state app) |}) sel.

(** [(s) => s.id !== sessionId] *)
Definition other_than (sessionId : string) (s : Session.t) : bool :=
  negb (String.eqb (Session.id s) sessionId).

(** What an import does once the check has passed. *)
Definition accepted (st : AppState) (confirmed : bool) (importedData : value)
  : list effect :=
  if 0 <? length (sessions st)
  then
    if confirmed
    then [Confirm confirm_message; SetState importedData;
          Alert success_message]
    else [Confirm confirm_message]
  else [SetState importedData; Alert success_message].

(** [dataStr] of [handleExportData] on the state as it is at run time,
    which after an import is the imported value. *)
Definition dataStr (stateValue : value) : string := JSON.stringify stateValue.

(** A string of exactly two characters. *)
Definition two_chars (s : string) : bool :=
  match s with
  | String _ (String _ EmptyString) => true
  | _ => false
  end.

(** Further sample data. *)
Module Cases.
Definition report_open : App :=
  {| state :=
       {| sessions := [Session.Make "a" "Monday" "11.02.2026"
                         [Trade.Make "t1" [("symbol", VStr "ES")]] []];
          activeSessionId := Some "a" |};
     selectedTrade := Some (Trade.Make "t1" [("symbol", VStr "ES")]) |}.
Definition wednesday : Session.t :=
  Session.Make "c" "Wednesday" "11.04.2026" [] [].
Definition edited : Trade.t := Trade.Make "t1" [("symbol", VStr "NQ")].
Definition fresh_trade : Trade.t := Trade.Make "t9" [].
Definition odd_backup : value :=
  VObj [("sessions", VArr [VNum 1; VNull]); ("version", VStr "x")].
End Cases.

(** ** Sample data *)

Module Sample.
Definition trade1 : Trade.t :=
  Trade.Make "t1" [("symbol", VStr "ES"); ("size", VNum 2)].
Definition trade2 : Trade.t :=
  Trade.Make "t2" [("symbol", VStr "NQ"); ("notes", VNull)].
Definition trade1' : Trade.t :=
  Trade.Make "t1" [("symbol", VStr "ES"); ("size", VNum 3)].

Definition monday : Session.t :=
  Session.Make "a" "Monday" "11.02.2026" [trade1] [].
Definition tuesday : Session.t :=
  Session.Make "b" "Tuesday" "11.03.2026" [trade2] [].
(** A second session under the id of [monday]. *)
Definition monday_again : Session.t :=
  Session.Make "a" "Monday (copy)" "11.02.2026" [trade1; trade2] [].

Definition journal : AppState :=
  {| sessions := [monday; tuesday]; activeSessionId := Some "a" |}.
Definition clashing : AppState :=
  {| sessions := [monday; monday_again]; activeSessionId := Some "a" |}.
Definition dangling : AppState :=
  {| sessions := [monday; tuesday]; activeSessionId := Some "zz" |}.
Definition empty : AppState :=
  {| sessions := []; activeSessionId := None |}.

Definition app_of (st : AppState) : App :=
  {| state := st; selectedTrade := None |}.

(** The text of a backup of [journal]. *)
Definition backup : string := snd (handleExportData journal "2026-11-02").
End Sample.

(** * Properties *)

(** ** The model at work *)

Example add_trade_to_journal :
  map Session.trades
      (sessions (state (handleAddTrade (Sample.app_of Sample.journal)
                                       Sample.trade2)))
  = [[Sample.trade1; Sample.trade2]; [Sample.trade2]].
Proof. reflexivity. Qed.

Example delete_active_session :
  state (handleDeleteSession (Sample.app_of Sample.journal) "a")
  = {| sessions := [Sample.tuesday]; activeSessionId := Some "b" |}.
Proof. reflexivity. Qed.

Example parse_with_spaces :
  JSON.parse " [1, -20 ,true , null ] "
  = Some (VArr [VNum 1; VNum (-20); VBool true; VNull]).
Proof. vm_compute. reflexivity. Qed.

Example parse_trailing_comma : JSON.parse "[1,]" = None.
Proof. vm_compute. reflexivity. Qed.

Example parse_leading_zero : JSON.parse "01" = None.
Proof. vm_compute. reflexivity. Qed.

Example parse_backup :
  JSON.parse Sample.backup = Some (state_object Sample.journal).
Proof. vm_compute. reflexivity. Qed.

Example import_no_file :
  handleImportData Sample.journal None true = [].
Proof. reflexivity. Qed.

Example import_not_json :
  handleImportData Sample.journal (Some "{") true
  = [ConsoleError; Alert failure_message].
Proof. vm_compute. reflexivity. Qed.

(** [null.sessions] throws inside the [try]. *)
Example import_null :
  handleImportData Sample.journal (Some "null") true
  = [ConsoleError; Alert failure_message].
Proof. vm_compute. reflexivity. Qed.

Example import_array :
  handleImportData Sample.journal (Some "[]") true
  = [Alert invalid_message].
Proof. vm_compute. reflexivity. Qed.

Example import_sessions_not_an_array :
  handleImportData Sample.journal
    (Some (JSON.stringify (VObj [("sessions", VStr "x")]))) true
  = [Alert invalid_message].
Proof. vm_compute. reflexivity. Qed.

(** An empty array is truthy: the check accepts it. *)
Example import_no_sessions :
  handleImportData Sample.empty
    (Some (JSON.stringify (VObj [("sessions", VArr [])]))) true
  = [SetState (VObj [("sessions", VArr [])]); Alert success_message].
Proof. vm_compute. reflexivity. Qed.

Example import_declined :
  handleImportData Sample.journal (Some Sample.backup) false
  = [Confirm confirm_message].
Proof. vm_compute. reflexivity. Qed.

(** ** Lists *)

Lemma filter_removed (A : Type) (keep : A -> bool) (l : list A) :
  removed (fun x => keep x = false) l (filter keep l).
Proof.
  induction l as [|x l IH]; simpl.
  - constructor.
  - destruct (keep x) eqn:E.
    + apply removed_keep; [congruence | exact IH].
    + apply removed_drop; assumption.
Qed.

Lemma removed_weaken (A : Type) (P Q : A -> Prop) (old new : list A) :
  (forall x, P x <-> Q x) -> removed P old new -> removed Q old new.
Proof.
  intros HPQ H. induction H.
  - constructor.
  - apply removed_drop; [apply HPQ; assumption | assumption].
  - apply removed_keep; [rewrite <- HPQ; assumption | assumption].
Qed.

(** What is left after a removal: the elements that did not satisfy [P]. *)
Lemma removed_In (A : Type) (P : A -> Prop) (old new : list A) :
  removed P old new -> forall x, In x new <-> In x old /\ ~ P x.
Proof.
  induction 1 as [|y old new Hy _ IH|y old new Hy _ IH]; intros x; simpl.
  - tauto.
  - rewrite IH. split.
    + tauto.
    + intros [[->|Hin] Hn]; [contradiction | tauto].
  - rewrite IH. split.
    + intros [->|[Hin Hn]]; tauto.
    + tauto.
Qed.

(** [find] returns the first element that passes the test. *)
Lemma find_split (A : Type) (f : A -> bool) (l : list A) (a : A) :
  find f l = Some a ->
  exists before after,
    l = before ++ a :: after /\ f a = true /\
    forall x, In x before -> f x = false.
Proof.
  induction l as [|x l IH]; simpl; [discriminate|].
  destruct (f x) eqn:E.
  - intros [= ->]. exists [], l. simpl. tauto.
  - intros H. destruct (IH H) as (before & after & -> & Ha & Hb).
    exists (x :: before), after. simpl. repeat split; trivial.
    intros y [->|Hy]; auto.
Qed.

Lemma find_none_iff (A : Type) (f : A -> bool) (l : list A) :
  (forall x, In x l -> f x = false) -> find f l = None.
Proof.
  induction l as [|x l IH]; simpl; intros H; [reflexivity|].
  rewrite (H x (or_introl eq_refl)). apply IH. auto.
Qed.

Lemma map_unchanged (A : Type) (g : A -> A) (l : list A) :
  (forall x, In x l -> g x = x) -> map g l = l.
Proof.
  induction l as [|x l IH]; simpl; intros H; [reflexivity|].
  rewrite (H x (or_introl eq_refl)), IH; auto.
Qed.

(** ** The active session *)

Lemma strict_eq_true (a : string) (b : option string) :
  strict_eq a b = true <-> b = Some a.
Proof.
  destruct b as [b|]; simpl.
  - rewrite String.eqb_eq. split; [intros ->; reflexivity | congruence].
  - split; discriminate.
Qed.

(** The active session is a session of the list, and its id is
    [activeSessionId]. *)
Lemma activeSession_some (st : AppState) (active : Session.t) :
  activeSession st = Some active ->
  In active (sessions st) /\ activeSessionId st = Some (Session.id active).
Proof.
  unfold activeSession. intros H. apply find_some in H.
  destruct H as [Hin Heq]. apply strict_eq_true in Heq. auto.
Qed.

Lemma activeSession_none (st : AppState) :
  (forall s, In s (sessions st) -> activeSessionId st <> Some (Session.id s)) ->
  activeSession st = None.
Proof.
  intros H. unfold activeSession. apply find_none_iff. intros s Hs.
  destruct (strict_eq (Session.id s) (activeSessionId st)) eqn:E; trivial.
  apply strict_eq_true in E. elim (H s Hs E).
Qed.

(** [map_active], session by session. *)
Lemma map_active_Forall2 f active l :
  Forall2 (fun s s' =>
             (Session.id s = Session.id active /\
              s' = Session.with_trades s (f (Session.trades s)))
             \/ (Session.id s <> Session.id active /\ s' = s))
          l (map_active f active l).
Proof.
  induction l as [|s l IH]; simpl; constructor; trivial.
  destruct (String.eqb_spec (Session.id s) (Session.id active)); auto.
Qed.

Lemma map_active_other f active l :
  (forall s, In s l -> Session.id s <> Session.id active) ->
  map_active f active l = l.
Proof.
  intros H. apply map_unchanged. intros s Hs.
  destruct (String.eqb_spec (Session.id s) (Session.id active)); trivial.
  elim (H s Hs); assumption.
Qed.

Lemma NoDup_ids_split (before after : list Session.t) (active : Session.t) :
  NoDup (map Session.id (before ++ active :: after)) ->
  forall s, In s before \/ In s after -> Session.id s <> Session.id active.
Proof.
  rewrite map_app. simpl. intros H s Hs E.
  apply NoDup_remove_2 in H. apply H. rewrite <- E.
  apply in_or_app. destruct Hs as [Hs|Hs]; [left|right];
    apply in_map; assumption.
Qed.

(** With pairwise distinct ids, [map_active] changes the active session
    alone. *)
Lemma map_active_unique f active (l : list Session.t) :
  find (fun s => strict_eq (Session.id s) (Some (Session.id active))) l
    = Some active ->
  NoDup (map Session.id l) ->
  exists before after,
    l = before ++ active :: after /\
    map_active f active l =
      before ++ Session.with_trades active (f (Session.trades active))
             :: after.
Proof.
  intros Hfind Hnd.
  destruct (find_split _ _ Hfind) as (before & after & -> & _ & _).
  exists before, after. split; [reflexivity|].
  pose proof (NoDup_ids_split _ _ _ Hnd) as Hother.
  unfold map_active. rewrite map_app. simpl.
  rewrite String.eqb_refl. f_equal; [|f_equal].
  - apply map_active_other. intros s Hs. apply Hother. auto.
  - apply map_active_other. intros s Hs. apply Hother. auto.
Qed.

(** The common shape of the three trade handlers. *)
Lemma trade_handler_same_id (f : list Trade.t -> list Trade.t)
    (sel : option Trade.t) (app : App) (active : Session.t) :
  activeSession (state app) = Some active ->
  let app' :=
    setSelectedTrade
      (setState app
         {| sessions := map_active f active (sessions (state app));
            activeSessionId := activeSessionId (state app) |}) sel in
  same_id_changed f active app app' /\
  (NoDup (map Session.id (sessions (state app))) ->
   only_active_changed f app app').
Proof.
  intros Hact app'. split.
  - split; [reflexivity|]. simpl. apply map_active_Forall2.
  - intros Hnd active' Hact'. rewrite Hact in Hact'. injection Hact' as <-.
    split; [reflexivity|]. simpl.
    destruct (activeSession_some _ Hact) as [_ Hid].
    unfold activeSession in Hact. rewrite Hid in Hact.
    apply map_active_unique; assumption.
Qed.

(** ** Sessions *)

(** C6: [handleCreateSession] appends the new session at the end of the
    sessions list and makes its id the active one; every session that
    was there stays at its place, unmodified. *)
Theorem handleCreateSession_appends (app : App) (session : Session.t) :
  let app' := handleCreateSession app session in
  sessions (state app') = sessions (state app) ++ [session] /\
  activeSessionId (state app') = Some (Session.id session) /\
  (forall i s,
      nth_error (sessions (state app)) i = Some s ->
      nth_error (sessions (state app')) i = Some s) /\
  nth_error (sessions (state app')) (length (sessions (state app)))
    = Some session.
Proof.
  simpl. repeat split.
  - intros i s H. rewrite nth_error_app1; trivial.
    apply nth_error_Some. congruence.
  - rewrite nth_error_app2, Nat.sub_diag; [reflexivity | lia].
Qed.

(** C7: [handleDeleteSession] removes exactly the sessions whose id is
    the given one; the remaining sessions keep their order and their
    contents. *)
Theorem handleDeleteSession_removes (app : App) (sessionId : string) :
  let app' := handleDeleteSession app sessionId in
  removed (fun s => Session.id s = sessionId)
          (sessions (state app)) (sessions (state app')) /\
  (forall s, In s (sessions (state app')) <->
             In s (sessions (state app)) /\ Session.id s <> sessionId).
Proof.
  intros app'.
  assert (H : removed (fun s => Session.id s = sessionId)
                (sessions (state app)) (sessions (state app'))).
  { simpl. eapply removed_weaken; [|apply filter_removed].
    intros s. simpl. rewrite negb_false_iff. apply String.eqb_eq. }
  split; [exact H | exact (removed_In H)].
Qed.

(** C8: [handleSelectSession] sets [activeSessionId] to the given id and
    leaves the sessions list as it is. *)
Theorem handleSelectSession_frame (app : App) (sessionId : string) :
  let app' := handleSelectSession app sessionId in
  activeSessionId (state app') = Some sessionId /\
  sessions (state app') = sessions (state app).
Proof.
  simpl. split; reflexivity.
Qed.

(** C9: deleting the session whose id is the active one makes the first
    remaining session active, or none when no session remains; deleting
    under any other id leaves [activeSessionId] as it is. *)
Theorem handleDeleteSession_active (app : App) (sessionId : string) :
  let app' := handleDeleteSession app sessionId in
  (activeSessionId (state app) = Some sessionId ->
   activeSessionId (state app') =
     match sessions (state app') with
     | first :: _ => Some (Session.id first)
     | [] => None
     end) /\
  (activeSessionId (state app) <> Some sessionId ->
   activeSessionId (state app') = activeSessionId (state app)).
Proof.
  simpl. split; intros H.
  - apply strict_eq_true in H. rewrite H.
    destruct (filter _ (sessions (state app))); reflexivity.
  - destruct (strict_eq sessionId (activeSessionId (state app))) eqn:E;
      [|reflexivity].
    apply strict_eq_true in E. contradiction.
Qed.

Lemma handleDeleteSession_active_witness :
  activeSessionId
    (state (handleDeleteSession (Sample.app_of Sample.journal) "a"))
  = Some "b" /\
  activeSessionId
    (state (handleDeleteSession (Sample.app_of Sample.journal) "b"))
  = Some "a".
Proof.
  split.
  - exact (proj1 (handleDeleteSession_active
                    (Sample.app_of Sample.journal) "a") eq_refl).
  - apply (proj2 (handleDeleteSession_active
                    (Sample.app_of Sample.journal) "b")).
    simpl. discriminate.
Defined.

(** ** Trades *)

(** C10: when no session has the id [activeSessionId] (also when
    [activeSessionId] is null), adding, updating and deleting a trade
    leave everything as it is. *)
Theorem trade_handlers_without_active_session (app : App) :
  (forall s, In s (sessions (state app)) ->
             activeSessionId (state app) <> Some (Session.id s)) ->
  forall (trade : Trade.t) (tradeId : string),
    handleAddTrade app trade = app /\
    handleUpdateTrade app trade = app /\
    handleDeleteTrade app tradeId = app.
Proof.
  intros H trade tradeId. apply activeSession_none in H.
  unfold handleAddTrade, handleUpdateTrade, handleDeleteTrade.
  rewrite H. auto.
Qed.

Lemma trade_handlers_without_active_session_witness :
  handleAddTrade (Sample.app_of Sample.dangling) Sample.trade2
    = Sample.app_of Sample.dangling /\
  handleUpdateTrade (Sample.app_of Sample.dangling) Sample.trade2
    = Sample.app_of Sample.dangling /\
  handleDeleteTrade (Sample.app_of Sample.dangling) "t1"
    = Sample.app_of Sample.dangling.
Proof.
  apply (@trade_handlers_without_active_session
           (Sample.app_of Sample.dangling)).
  simpl. intros s [<-|[<-|[]]]; simpl; discriminate.
Defined.

(** [update_trade] replaces exactly the trades of the updated trade's id. *)
Lemma update_trade_replaced (updatedTrade : Trade.t) (ts : list Trade.t) :
  replaced (fun t => Trade.id t = Trade.id updatedTrade) updatedTrade
           ts (update_trade updatedTrade ts).
Proof.
  induction ts as [|t ts IH]; simpl; constructor; trivial.
  destruct (String.eqb_spec (Trade.id t) (Trade.id updatedTrade)); auto.
Qed.

(** [delete_trade] removes exactly the trades of the given id. *)
Lemma delete_trade_removed (tradeId : string) (ts : list Trade.t) :
  removed (fun t => Trade.id t = tradeId) ts (delete_trade tradeId ts).
Proof.
  eapply removed_weaken; [|apply filter_removed].
  intros t. simpl. rewrite negb_false_iff. apply String.eqb_eq.
Qed.

(** Two sessions under one id: no split of the list leaves the second of
    them as it was. *)
Lemma clashing_not_only_active (f : list Trade.t -> list Trade.t)
    (app' : App) :
  sessions (state app') =
    map_active f Sample.monday (sessions Sample.clashing) ->
  f (Session.trades Sample.monday_again)
    <> Session.trades Sample.monday_again ->
  ~ only_active_changed f (Sample.app_of Sample.clashing) app'.
Proof.
  intros Hs Hf Honly.
  destruct (Honly Sample.monday eq_refl) as (_ & before & after & Hold & Hnew).
  rewrite Hs in Hnew. simpl in Hold, Hnew.
  destruct before as [|x [|y before]]; simpl in Hold, Hnew.
  - injection Hold as <-. injection Hnew as Hnew. auto.
  - injection Hold as _ Hold. discriminate Hold.
  - injection Hold as _ _ Hold. destruct before; discriminate Hold.
Qed.

(** C4, as stated, fails: with two sessions under the active id, the
    added trade lands in both of them, so a session other than the
    active one is changed. *)
Lemma handleAddTrade_changes_other_session :
  ~ only_active_changed (append_trade Sample.trade2)
      (Sample.app_of Sample.clashing)
      (handleAddTrade (Sample.app_of Sample.clashing) Sample.trade2).
Proof.
  apply clashing_not_only_active; [reflexivity | discriminate].
Qed.

(** C4, amended: with an active session, [handleAddTrade] appends the
    trade at the end of the trades of the active session and of every
    other session that has its id; the other fields of these sessions,
    the sessions of any other id and [activeSessionId] are unchanged.
    When the session ids are pairwise distinct, the active session is
    the only session that changes. *)
Theorem handleAddTrade_appends (app : App) (trade : Trade.t)
    (active : Session.t) :
  activeSession (state app) = Some active ->
  let app' := handleAddTrade app trade in
  In active (sessions (state app)) /\
  same_id_changed (append_trade trade) active app app' /\
  (NoDup (map Session.id (sessions (state app))) ->
   only_active_changed (append_trade trade) app app').
Proof.
  intros Hact. unfold handleAddTrade. rewrite Hact.
  split; [apply (activeSession_some _ Hact)|].
  exact (trade_handler_same_id (append_trade trade) (Some trade) app Hact).
Qed.

Lemma handleAddTrade_appends_witness :
  map Session.trades
      (sessions (state (handleAddTrade (Sample.app_of Sample.journal)
                                       Sample.trade2)))
  = [[Sample.trade1; Sample.trade2]; [Sample.trade2]] /\
  only_active_changed (append_trade Sample.trade2)
    (Sample.app_of Sample.journal)
    (handleAddTrade (Sample.app_of Sample.journal) Sample.trade2).
Proof.
  split; [reflexivity|].
  apply (@handleAddTrade_appends (Sample.app_of Sample.journal)
           Sample.trade2 Sample.monday eq_refl).
  simpl. repeat constructor; simpl; intuition discriminate.
Defined.

(** C5, as stated, fails: with two sessions under the active id,
    updating or deleting a trade also rewrites the trades of the session
    that is not the active one. *)
Lemma trade_edit_changes_other_session :
  ~ only_active_changed (update_trade Sample.trade1')
      (Sample.app_of Sample.clashing)
      (handleUpdateTrade (Sample.app_of Sample.clashing) Sample.trade1') /\
  ~ only_active_changed (delete_trade "t1")
      (Sample.app_of Sample.clashing)
      (handleDeleteTrade (Sample.app_of Sample.clashing) "t1").
Proof.
  split; apply clashing_not_only_active;
    solve [reflexivity | discriminate].
Qed.

(** C5, amended: with an active session, [handleUpdateTrade] replaces
    exactly the trades whose id is the updated trade's, keeping length
    and order, and [handleDeleteTrade] removes exactly the trades whose
    id is the given one, in the active session and in every other
    session that has its id; all other trades, the sessions of any
    other id and [activeSessionId] are unchanged.  When the session ids
    are pairwise distinct, the active session is the only session that
    changes. *)
Theorem trade_edit_by_id (app : App) (updatedTrade : Trade.t)
    (tradeId : string) (active : Session.t) :
  activeSession (state app) = Some active ->
  let updated := handleUpdateTrade app updatedTrade in
  let deleted := handleDeleteTrade app tradeId in
  (forall ts,
      replaced (fun t => Trade.id t = Trade.id updatedTrade) updatedTrade
               ts (update_trade updatedTrade ts) /\
      removed (fun t => Trade.id t = tradeId) ts (delete_trade tradeId ts)) /\
  same_id_changed (update_trade updatedTrade) active app updated /\
  same_id_changed (delete_trade tradeId) active app deleted /\
  (NoDup (map Session.id (sessions (state app))) ->
   only_active_changed (update_trade updatedTrade) app updated /\
   only_active_changed (delete_trade tradeId) app deleted).
Proof.
  intros Hact. unfold handleUpdateTrade, handleDeleteTrade. rewrite Hact.
  pose proof (trade_handler_same_id (update_trade updatedTrade)
                (Some updatedTrade) app Hact) as [Hu Hu'].
  pose proof (trade_handler_same_id (delete_trade tradeId)
                None app Hact) as [Hd Hd'].
  split; [|auto].
  intros ts. split;
    [apply update_trade_replaced | apply delete_trade_removed].
Qed.

Lemma trade_edit_by_id_witness :
  map Session.trades
      (sessions (state (handleUpdateTrade (Sample.app_of Sample.journal)
                                          Sample.trade1')))
  = [[Sample.trade1']; [Sample.trade2]] /\
  map Session.trades
      (sessions (state (handleDeleteTrade (Sample.app_of Sample.journal)
                                          "t1")))
  = [[]; [Sample.trade2]] /\
  same_id_changed (delete_trade "t1") Sample.monday
    (Sample.app_of Sample.journal)
    (handleDeleteTrade (Sample.app_of Sample.journal) "t1").
Proof.
  split; [reflexivity|]. split; [reflexivity|].
  apply (@trade_edit_by_id (Sample.app_of Sample.journal)
           Sample.trade1' "t1" Sample.monday eq_refl).
Defined.

(** ** Printing and parsing JSON *)

Lemma append_assoc (a b c : string) : ((a ++ b) ++ c = a ++ (b ++ c))%string.
Proof. induction a as [|x a IH]; simpl; [reflexivity | rewrite IH; reflexivity]. Qed.

Lemma length_append (a b : string) :
  String.length (a ++ b) = String.length a + String.length b.
Proof. induction a as [|x a IH]; simpl; [reflexivity | rewrite IH; reflexivity]. Qed.

(** A blank prefix, one that [skip_ws] skips whole, is skipped before
    anything that follows. *)
Lemma skip_ws_blank (w s : string) :
  JSON.skip_ws w = "" -> JSON.skip_ws (w ++ s) = JSON.skip_ws s.
Proof.
  induction w as [|c w IH]; simpl; [reflexivity|].
  destruct (JSON.is_ws c); [exact IH | discriminate].
Qed.

Lemma blank_append (w1 w2 : string) :
  JSON.skip_ws w1 = "" -> JSON.skip_ws w2 = "" -> JSON.skip_ws (w1 ++ w2) = "".
Proof. intros H1 H2. rewrite skip_ws_blank; assumption. Qed.

(** *** String literals

    One character, quoted and read back; by cases on the 256 characters. *)
Lemma parse_chars_quote_char (c : ascii) (tail : string) :
  JSON.parse_chars (JSON.quote_char c ++ tail)
  = JSON.cons_char c (JSON.parse_chars tail).
Proof.
  destruct c as [[] [] [] [] [] [] [] []]; reflexivity.
Qed.

(** [parse_chars] reads back what [quote_chars] prints. *)
Lemma parse_chars_quote_chars (s rest : string) :
  JSON.parse_chars (JSON.quote_chars s ++ String JSON.dquote rest)
  = Some (s, rest).
Proof.
  induction s as [|c s IH]; simpl.
  - reflexivity.
  - rewrite append_assoc, parse_chars_quote_char, IH. reflexivity.
Qed.

(** *** Numbers *)
Lemma scan_digits_uint (d : Decimal.uint) (rest : string) :
  JSON.scan_digits rest = (Decimal.Nil, rest) ->
  JSON.scan_digits (NilEmpty.string_of_uint d ++ rest) = (d, rest).
Proof.
  intros Hrest. induction d; simpl; try rewrite IHd; auto.
Qed.

(** The decimal digits of a positive number do not start with a zero. *)
Lemma to_uint_head (p : positive) :
  match Pos.to_uint p with
  | Decimal.Nil | Decimal.D0 _ => False
  | _ => True
  end.
Proof.
  pose proof (DecimalPos.Unsigned.to_of (Pos.to_uint p)) as Hnorm.
  rewrite DecimalPos.Unsigned.of_to in Hnorm. simpl in Hnorm.
  pose proof (DecimalPos.Unsigned.to_uint_nonzero p) as Hnz.
  destruct (Pos.to_uint p) as [|d| | | | | | | | | ] eqn:E; trivial.
  - discriminate Hnorm.
  - rewrite DecimalFacts.unorm_D0 in Hnorm.
    destruct d as [|d'| | | | | | | | | ] eqn:Ed;
      try (pose proof (DecimalFacts.nb_digits_unorm d) as Hlen; subst d;
           rewrite <- Hnorm in Hlen; simpl in Hlen;
           specialize (Hlen ltac:(discriminate)); lia).
    apply Hnz. reflexivity.
Qed.

Lemma parse_int_uint (d : Decimal.uint) (rest : string) :
  match d with Decimal.Nil | Decimal.D0 _ => False | _ => True end ->
  JSON.scan_digits rest = (Decimal.Nil, rest) ->
  JSON.parse_int (NilZero.string_of_uint d ++ rest) = Some (d, rest).
Proof.
  intros Hd Hrest.
  destruct d; try contradiction; simpl;
    rewrite (scan_digits_uint _ Hrest); reflexivity.
Qed.

(** [parse_number] reads back what [number_to_string] prints, when no
    digit follows. *)
Lemma parse_number_to_string (n : Z) (rest : string) :
  JSON.scan_digits rest = (Decimal.Nil, rest) ->
  JSON.parse_number (JSON.number_to_string n ++ rest) = Some (VNum n, rest).
Proof.
  intros Hrest. unfold JSON.number_to_string.
  rewrite <- (DecimalZ.of_to n) at 2.
  destruct n as [|p|p]; simpl Z.to_int.
  - reflexivity.
  - pose proof (to_uint_head p) as Hp.
    unfold NilZero.string_of_int.
    assert (Hs : exists c tail,
               (NilZero.string_of_uint (Pos.to_uint p) ++ rest)%string
               = String c tail /\ Ascii.eqb c "-" = false).
    { destruct (Pos.to_uint p); try contradiction; simpl; eauto. }
    destruct Hs as (c & tail & Hs & Hc).
    unfold JSON.parse_number. rewrite Hs, Hc, <- Hs.
    rewrite (@parse_int_uint _ rest Hp Hrest). reflexivity.
  - pose proof (to_uint_head p) as Hp.
    unfold NilZero.string_of_int. simpl.
    rewrite (@parse_int_uint _ rest Hp Hrest). reflexivity.
Qed.

(** A printed number starts with a digit or a minus sign. *)
Lemma number_to_string_head (n : Z) :
  exists c tail,
    JSON.number_to_string n = String c tail /\
    (JSON.digit_of c <> None \/ c = "-"%char).
Proof.
  unfold JSON.number_to_string. destruct n as [|p|p]; simpl.
  - exists "0"%char, "". split; [reflexivity|]. left. discriminate.
  - pose proof (to_uint_head p) as Hp.
    destruct (Pos.to_uint p); try contradiction; simpl;
      eexists; eexists; (split; [reflexivity|]); left; discriminate.
  - eexists; eexists; split; [reflexivity|]. right. reflexivity.
Qed.

Lemma parse_value_number_head (fuel : nat) (c : ascii) (tail : string) :
  JSON.digit_of c <> None \/ c = "-"%char ->
  JSON.parse_value (S fuel) (String c tail)
  = JSON.parse_number (String c tail).
Proof.
  intros H.
  destruct c as [[] [] [] [] [] [] [] []];
    try reflexivity;
    exfalso; destruct H as [H|H]; solve [apply H; reflexivity | discriminate H].
Qed.

Lemma append_nil_r (s : string) : (s ++ "")%string = s.
Proof. induction s as [|c s IH]; simpl; [|rewrite IH]; reflexivity. Qed.

Lemma skip_ws_head (c : ascii) (tail : string) :
  JSON.is_ws c = false -> JSON.skip_ws (String c tail) = String c tail.
Proof. intros H. simpl. rewrite H. reflexivity. Qed.

(** *** White space before a value *)
Lemma parse_value_blank (fuel : nat) (w s : string) :
  JSON.skip_ws w = "" ->
  JSON.parse_value fuel (w ++ s) = JSON.parse_value fuel s.
Proof.
  intros Hw. destruct fuel; simpl; [reflexivity|].
  unfold JSON.value_level. rewrite skip_ws_blank by exact Hw. reflexivity.
Qed.

Lemma parse_elements_blank (fuel : nat) (w s : string) :
  JSON.skip_ws w = "" ->
  JSON.parse_elements fuel (w ++ s) = JSON.parse_elements fuel s.
Proof.
  intros Hw. destruct fuel; simpl; [reflexivity|].
  unfold JSON.elements_level. rewrite parse_value_blank by exact Hw.
  reflexivity.
Qed.

Lemma parse_members_blank (fuel : nat) (w s : string) :
  JSON.skip_ws w = "" ->
  JSON.parse_members fuel (w ++ s) = JSON.parse_members fuel s.
Proof.
  intros Hw. destruct fuel; simpl; [reflexivity|].
  unfold JSON.members_level. rewrite skip_ws_blank by exact Hw. reflexivity.
Qed.

(** A printed value starts with a character that is neither white space
    nor a closing bracket. *)
Lemma serialize_head (indent : string) (v : value) :
  exists c tail,
    JSON.serialize indent v = String c tail /\
    JSON.is_ws c = false /\ Ascii.eqb c "]" = false.
Proof.
  destruct v as [|b|n|s|items|props]; simpl.
  - eexists; eexists; split; [reflexivity|split; reflexivity].
  - destruct b; eexists; eexists; split; try reflexivity; split; reflexivity.
  - destruct (number_to_string_head n) as (c & tail & -> & Hc).
    exists c, tail. split; [reflexivity|].
    destruct Hc as [Hc| ->]; [|split; reflexivity].
    destruct c as [[] [] [] [] [] [] [] []];
      solve [split; reflexivity | elim Hc; reflexivity].
  - eexists; eexists; split; [reflexivity|split; reflexivity].
  - destruct items; eexists; eexists; split; try reflexivity; split; reflexivity.
  - destruct props; eexists; eexists; split; try reflexivity; split; reflexivity.
Qed.

(** *** Arrays *)
Lemma concat_cons2 (sep a b : string) (l : list string) :
  String.concat sep (a :: b :: l)
  = (a ++ sep ++ String.concat sep (b :: l))%string.
Proof. reflexivity. Qed.

Lemma parse_elements_S (fuel : nat) (s : string) :
  JSON.parse_elements (S fuel) s =
  match JSON.parse_value fuel s with
  | Some (v, rest) =>
      match JSON.skip_ws rest with
      | String c rest' =>
          if Ascii.eqb c "," then
            match JSON.parse_elements fuel rest' with
            | Some (vs, rest'') => Some (v :: vs, rest'')
            | None => None
            end
          else if Ascii.eqb c "]" then Some ([v], rest')
          else None
      | EmptyString => None
      end
  | None => None
  end.
Proof. reflexivity. Qed.

Lemma skip_ws_comma (s : string) :
  JSON.skip_ws ("," ++ s) = String "," s.
Proof. reflexivity. Qed.

Lemma if_comma (A : Type) (a b : A) :
  (if Ascii.eqb "," "," then a else b) = a.
Proof. reflexivity. Qed.

(** The elements of a printed array, read back up to its bracket. *)
Lemma elements_read_back (items : list value) :
  Forall reads_back items ->
  forallb well_formed items = true ->
  items <> [] ->
  forall indent stepback fuel rest,
    JSON.skip_ws indent = "" ->
    JSON.skip_ws stepback = "" ->
    list_sum (map (fun x => S (size x)) items) <= fuel ->
    JSON.parse_elements fuel
      (String.concat ("," ++ JSON.LF ++ indent)
                     (map (JSON.serialize indent) items)
       ++ JSON.LF ++ stepback ++ String "]" rest)
    = Some (items, rest).
Proof.
  induction 1 as [|x xs Hx _ IH]; intros Hwf Hne indent stepback fuel rest
    Hind Hstep Hfuel; [congruence|].
  simpl in Hwf. apply andb_true_iff in Hwf. destruct Hwf as [Hwfx Hwfxs].
  simpl in Hfuel. destruct fuel as [|fuel]; [lia|].
  rewrite parse_elements_S.
  destruct xs as [|y ys].
  - simpl String.concat. simpl map.
    rewrite (Hx Hwfx indent fuel); [|exact Hind|lia|reflexivity].
    change (JSON.LF ++ stepback ++ String "]" rest)%string
      with (String (ascii_of_nat 10) (stepback ++ String "]" rest)).
    change (JSON.skip_ws (String (ascii_of_nat 10) ?s))
      with (JSON.skip_ws s).
    rewrite skip_ws_blank by exact Hstep. reflexivity.
  - change (map (JSON.serialize indent) (x :: y :: ys))
      with (JSON.serialize indent x
              :: map (JSON.serialize indent) (y :: ys)).
    simpl map at 1.
    rewrite concat_cons2.
    rewrite !append_assoc.
    rewrite (Hx Hwfx indent fuel); [|exact Hind|lia|reflexivity].
    rewrite skip_ws_comma. rewrite if_comma.
    rewrite parse_elements_blank by reflexivity.
    rewrite parse_elements_blank by exact Hind.
    change (JSON.serialize indent y :: map (JSON.serialize indent) ys)
      with (map (JSON.serialize indent) (y :: ys)).
    rewrite (IH Hwfxs ltac:(discriminate) indent stepback fuel rest
               Hind Hstep ltac:(simpl in *; lia)).
    reflexivity.
Qed.

(** *** Objects *)
Lemma quoted_text (k body : string) :
  (JSON.QuoteJSONString k ++ body)%string
  = String JSON.dquote (JSON.quote_chars k ++ String JSON.dquote body).
Proof.
  unfold JSON.QuoteJSONString. simpl. rewrite append_assoc. reflexivity.
Qed.

Lemma parse_members_S (fuel : nat) (k s : string) :
  JSON.parse_members (S fuel) (JSON.QuoteJSONString k ++ ": " ++ s)
  = match JSON.parse_value fuel s with
    | Some (v, rest3) =>
        match JSON.skip_ws rest3 with
        | String c rest4 =>
            if Ascii.eqb c "," then
              match JSON.parse_members fuel rest4 with
              | Some (ms, rest5) => Some ((k, v) :: ms, rest5)
              | None => None
              end
            else if Ascii.eqb c "}" then Some ([(k, v)], rest4)
            else None
        | EmptyString => None
        end
    | None => None
    end.
Proof.
  rewrite quoted_text.
  change (JSON.parse_members (S fuel) (String JSON.dquote ?body))
    with (match JSON.parse_chars body with
          | Some (k, rest1) =>
              match JSON.skip_ws rest1 with
              | String colon rest2 =>
                  if Ascii.eqb colon ":" then
                    match JSON.parse_value fuel rest2 with
                    | Some (v, rest3) =>
                        match JSON.skip_ws rest3 with
                        | String c rest4 =>
                            if Ascii.eqb c "," then
                              match JSON.parse_members fuel rest4 with
                              | Some (ms, rest5) =>
                                  Some ((k, v) :: ms, rest5)
                              | None => None
                              end
                            else if Ascii.eqb c "}" then
                              Some ([(k, v)], rest4)
                            else None
                        | EmptyString => None
                        end
                    | None => None
                    end
                  else None
              | EmptyString => None
              end
          | None => None
          end).
  rewrite parse_chars_quote_chars.
  change (JSON.skip_ws (": " ++ s)) with (String ":" (" " ++ s)).
  cbv iota beta.
  change (Ascii.eqb ":" ":") with true. cbv iota.
  rewrite parse_value_blank by reflexivity. reflexivity.
Qed.

(** The members of a printed object, read back up to its brace. *)
Lemma members_read_back (props : list (string * value)) :
  Forall (fun kv => reads_back (snd kv)) props ->
  forallb (fun kv => well_formed (snd kv)) props = true ->
  props <> [] ->
  forall indent stepback fuel rest,
    JSON.skip_ws indent = "" ->
    JSON.skip_ws stepback = "" ->
    list_sum (map (fun kv => S (size (snd kv))) props) <= fuel ->
    JSON.parse_members fuel
      (String.concat ("," ++ JSON.LF ++ indent)
         (map (fun kv =>
                 JSON.QuoteJSONString (fst kv) ++ ": "
                   ++ JSON.serialize indent (snd kv))%string
              props)
       ++ JSON.LF ++ stepback ++ String "}" rest)
    = Some (props, rest).
Proof.
  induction 1 as [|[k x] xs Hx _ IH]; intros Hwf Hne indent stepback fuel rest
    Hind Hstep Hfuel; [congruence|].
  simpl in Hwf. apply andb_true_iff in Hwf. destruct Hwf as [Hwfx Hwfxs].
  simpl in Hx, Hfuel. destruct fuel as [|fuel]; [lia|].
  set (member := fun kv : string * value =>
                   (JSON.QuoteJSONString (fst kv) ++ ": "
                      ++ JSON.serialize indent (snd kv))%string) in *.
  destruct xs as [|y ys].
  - change (String.concat ("," ++ JSON.LF ++ indent) (map member [(k, x)]))
      with (member (k, x)).
    unfold member. cbn [fst snd].
    rewrite !append_assoc. rewrite parse_members_S.
    rewrite (Hx Hwfx indent fuel); [|exact Hind|lia|reflexivity].
    change (JSON.LF ++ stepback ++ String "}" rest)%string
      with (String (ascii_of_nat 10) (stepback ++ String "}" rest)).
    change (JSON.skip_ws (String (ascii_of_nat 10) ?s))
      with (JSON.skip_ws s).
    rewrite skip_ws_blank by exact Hstep. reflexivity.
  - change (map member ((k, x) :: y :: ys))
      with (member (k, x) :: member y :: map member ys).
    rewrite concat_cons2.
    change (member y :: map member ys) with (map member (y :: ys)).
    unfold member at 1. cbn [fst snd].
    rewrite !append_assoc. rewrite parse_members_S.
    rewrite (Hx Hwfx indent fuel); [|exact Hind|lia|reflexivity].
    rewrite skip_ws_comma. rewrite if_comma.
    rewrite parse_members_blank by reflexivity.
    rewrite parse_members_blank by exact Hind.
    subst member.
    rewrite (IH Hwfxs ltac:(discriminate) indent stepback fuel rest
               Hind Hstep ltac:(simpl in *; lia)).
    reflexivity.
Qed.

(** Members with distinct keys become the properties as they are. *)
Lemma distinct_middle (l1 l2 : list string) (k : string) :
  distinct (l1 ++ k :: l2) = true -> existsb (String.eqb k) l1 = false.
Proof.
  induction l1 as [|a l1 IH]; simpl; [reflexivity|].
  intros H. apply andb_true_iff in H. destruct H as [Ha Hd].
  apply negb_true_iff in Ha. rewrite existsb_app in Ha.
  apply orb_false_iff in Ha. destruct Ha as [_ Ha]. simpl in Ha.
  apply orb_false_iff in Ha. destruct Ha as [Ha _].
  rewrite String.eqb_sym, Ha. simpl. apply IH. exact Hd.
Qed.

Lemma put_fresh (k : string) (v : value) (acc : list (string * value)) :
  existsb (String.eqb k) (map fst acc) = false ->
  JSON.put k v acc = acc ++ [(k, v)].
Proof.
  induction acc as [|[k' v'] acc IH]; simpl; [reflexivity|].
  intros H. apply orb_false_iff in H. destruct H as [Hk H].
  rewrite Hk, IH by exact H. reflexivity.
Qed.

Lemma fold_put (ms acc : list (string * value)) :
  distinct (map fst (acc ++ ms)) = true ->
  fold_left (fun props kv => JSON.put (fst kv) (snd kv) props) ms acc
  = acc ++ ms.
Proof.
  revert acc. induction ms as [|[k v] ms IH]; intros acc H; simpl.
  - rewrite List.app_nil_r. reflexivity.
  - rewrite put_fresh.
    + rewrite IH; rewrite <- List.app_assoc; [reflexivity | exact H].
    + rewrite map_app in H. simpl in H. apply (distinct_middle _ _ _ H).
Qed.

Lemma object_of_distinct_members (props : list (string * value)) :
  distinct (map fst props) = true ->
  JSON.object_of_members props = VObj props.
Proof.
  intros H. unfold JSON.object_of_members. rewrite fold_put; trivial.
Qed.

(** *** Values *)
Lemma serialize_arr (indent : string) (x : value) (xs : list value) :
  JSON.serialize indent (VArr (x :: xs))
  = ("[" ++ JSON.LF ++ (indent ++ JSON.gap)
       ++ String.concat ("," ++ JSON.LF ++ (indent ++ JSON.gap))
            (map (JSON.serialize (indent ++ JSON.gap)) (x :: xs))
       ++ JSON.LF ++ indent ++ "]")%string.
Proof. reflexivity. Qed.

Lemma serialize_obj (indent : string) (kv : string * value)
    (props : list (string * value)) :
  JSON.serialize indent (VObj (kv :: props))
  = ("{" ++ JSON.LF ++ (indent ++ JSON.gap)
       ++ String.concat ("," ++ JSON.LF ++ (indent ++ JSON.gap))
            (map (fun kv =>
                    JSON.QuoteJSONString (fst kv) ++ ": "
                      ++ JSON.serialize (indent ++ JSON.gap) (snd kv))
                 (kv :: props))
       ++ JSON.LF ++ indent ++ "}")%string.
Proof. reflexivity. Qed.

Lemma parse_value_arr (fuel : nat) (s : string) :
  JSON.parse_value (S fuel) (String "[" s)
  = match JSON.skip_ws s with
    | String c' rest' =>
        if Ascii.eqb c' "]" then Some (VArr [], rest')
        else
          match JSON.parse_elements fuel s with
          | Some (items, rest'') => Some (VArr items, rest'')
          | None => None
          end
    | EmptyString => None
    end.
Proof. reflexivity. Qed.

Lemma parse_value_obj (fuel : nat) (s : string) :
  JSON.parse_value (S fuel) (String "{" s)
  = match JSON.skip_ws s with
    | String c' rest' =>
        if Ascii.eqb c' "}" then Some (VObj [], rest')
        else
          match JSON.parse_members fuel s with
          | Some (ms, rest'') => Some (JSON.object_of_members ms, rest'')
          | None => None
          end
    | EmptyString => None
    end.
Proof. reflexivity. Qed.

Lemma parse_value_str (fuel : nat) (s : string) :
  JSON.parse_value (S fuel) (String JSON.dquote s)
  = match JSON.parse_chars s with
    | Some (str, rest') => Some (VStr str, rest')
    | None => None
    end.
Proof. reflexivity. Qed.

Lemma concat_head (sep first : string) (others : list string) (c : ascii)
    (tail : string) :
  first = String c tail ->
  exists tail', String.concat sep (first :: others) = String c tail'.
Proof.
  intros ->. destruct others as [|b l].
  - exists tail. reflexivity.
  - rewrite concat_cons2. simpl. eauto.
Qed.

Lemma blank_indent (indent : string) :
  JSON.skip_ws indent = "" -> JSON.skip_ws (indent ++ JSON.gap) = "".
Proof. intros H. apply blank_append; [exact H | reflexivity]. Qed.

Theorem serialize_reads_back (v : value) : reads_back v.
Proof.
  induction v as [|b|n|s|items IH|props IH] using value_ind;
    intros Hwf indent fuel rest Hind Hfuel Hrest;
    (destruct fuel as [|fuel]; [simpl in Hfuel; lia|]).
  - reflexivity.
  - destruct b; reflexivity.
  - change (JSON.serialize indent (VNum n)) with (JSON.number_to_string n).
    destruct (number_to_string_head n) as (c & tail & Hn & Hc).
    rewrite Hn. change (String c tail ++ rest)%string
      with (String c (tail ++ rest)).
    rewrite parse_value_number_head by exact Hc.
    change (String c (tail ++ rest)) with (String c tail ++ rest)%string.
    rewrite <- Hn. apply parse_number_to_string. exact Hrest.
  - change (JSON.serialize indent (VStr s)) with (JSON.QuoteJSONString s).
    rewrite quoted_text, parse_value_str, parse_chars_quote_chars.
    reflexivity.
  - destruct items as [|x xs]; [reflexivity|].
    change (well_formed (VArr (x :: xs)))
      with (forallb well_formed (x :: xs)) in Hwf.
    change (size (VArr (x :: xs)))
      with (S (list_sum (map (fun x => S (size x)) (x :: xs)))) in Hfuel.
    pose proof (blank_indent _ Hind) as Hind'.
    rewrite serialize_arr.
    set (indent' := (indent ++ JSON.gap)%string) in *.
    rewrite !append_assoc.
    change ("[" ++ ?s)%string with (String "[" s).
    rewrite parse_value_arr.
    destruct (serialize_head indent' x)
      as (c & tail & Hx & Hws & Hc).
    destruct (concat_head ("," ++ JSON.LF ++ indent')
                (map (JSON.serialize indent') xs) Hx)
      as (tail' & Hhead).
    rewrite skip_ws_blank by reflexivity.
    rewrite skip_ws_blank by exact Hind'.
    change (map (JSON.serialize indent') (x :: xs))
      with (JSON.serialize indent' x
              :: map (JSON.serialize indent') xs).
    rewrite Hhead at 1.
    change (String c tail' ++ ?s)%string with (String c (tail' ++ s)).
    rewrite skip_ws_head by exact Hws. rewrite Hc.
    rewrite parse_elements_blank by reflexivity.
    rewrite parse_elements_blank by exact Hind'.
    change ("]" ++ rest)%string with (String "]" rest).
    change (JSON.serialize indent' x
              :: map (JSON.serialize indent') xs)
      with (map (JSON.serialize indent') (x :: xs)).
    rewrite elements_read_back
      by (trivial; solve [discriminate | lia]).
    reflexivity.
  - destruct props as [|[k x] xs]; [reflexivity|].
    change (well_formed (VObj ((k, x) :: xs)))
      with (distinct (map fst ((k, x) :: xs))
            && forallb (fun kv => well_formed (snd kv)) ((k, x) :: xs))
      in Hwf.
    apply andb_true_iff in Hwf. destruct Hwf as [Hkeys Hwf].
    change (size (VObj ((k, x) :: xs)))
      with (S (list_sum (map (fun kv => S (size (snd kv))) ((k, x) :: xs))))
      in Hfuel.
    pose proof (blank_indent _ Hind) as Hind'.
    rewrite serialize_obj.
    set (indent' := (indent ++ JSON.gap)%string) in *.
    rewrite !append_assoc.
    change ("{" ++ ?s)%string with (String "{" s).
    rewrite parse_value_obj.
    set (member := fun kv : string * value =>
                     (JSON.QuoteJSONString (fst kv) ++ ": "
                        ++ JSON.serialize indent' (snd kv))%string).
    assert (Hm : exists tail, member (k, x) = String JSON.dquote tail).
    { unfold member. cbn [fst snd]. rewrite quoted_text. eauto. }
    destruct Hm as (tail & Hm).
    destruct (concat_head ("," ++ JSON.LF ++ indent')
                (map member xs) Hm) as (tail' & Hhead).
    rewrite skip_ws_blank by reflexivity.
    rewrite skip_ws_blank by exact Hind'.
    change (map member ((k, x) :: xs))
      with (member (k, x) :: map member xs).
    rewrite Hhead at 1.
    change (String JSON.dquote tail' ++ ?s)%string
      with (String JSON.dquote (tail' ++ s)).
    rewrite skip_ws_head by reflexivity.
    change (Ascii.eqb JSON.dquote "}") with false. cbv iota.
    rewrite parse_members_blank by reflexivity.
    rewrite parse_members_blank by exact Hind'.
    change ("}" ++ rest)%string with (String "}" rest).
    change (member (k, x) :: map member xs)
      with (map member ((k, x) :: xs)).
    subst member.
    rewrite members_read_back
      by (trivial; solve [discriminate | lia]).
    rewrite object_of_distinct_members by exact Hkeys.
    reflexivity.
Qed.

(** A printed value is at least as long as the fuel reading it takes. *)
Lemma concat_length (A : Type) (m : A -> nat) (f : A -> string)
    (sep : string) (l : list A) :
  Forall (fun a => m a <= String.length (f a)) l ->
  1 <= String.length sep ->
  list_sum (map (fun a => S (m a)) l)
  <= String.length (String.concat sep (map f l)) + 1.
Proof.
  intros Hall Hsep. induction Hall as [|a l Ha _ IH]; [simpl; lia|].
  destruct l as [|b l].
  - simpl. lia.
  - change (map f (a :: b :: l)) with (f a :: f b :: map f l).
    rewrite concat_cons2, !length_append.
    change (f b :: map f l) with (map f (b :: l)).
    change (list_sum (map (fun a => S (m a)) (a :: b :: l)))
      with (S (m a) + list_sum (map (fun a => S (m a)) (b :: l))).
    lia.
Qed.

Lemma size_le_length (v : value) :
  forall indent, size v <= String.length (JSON.serialize indent v).
Proof.
  induction v as [|b|n|s|items IH|props IH] using value_ind; intros indent.
  - simpl. lia.
  - destruct b; simpl; lia.
  - change (JSON.serialize indent (VNum n)) with (JSON.number_to_string n).
    destruct (number_to_string_head n) as (c & tail & -> & _). simpl. lia.
  - simpl. lia.
  - destruct items as [|x xs]; [simpl; lia|].
    rewrite serialize_arr.
    set (indent' := (indent ++ JSON.gap)%string).
    change (size (VArr (x :: xs)))
      with (S (list_sum (map (fun x => S (size x)) (x :: xs)))).
    rewrite !length_append.
    pose proof (@concat_length value size (JSON.serialize indent')
                  ("," ++ JSON.LF ++ indent') (x :: xs)) as H.
    simpl String.length in *.
    assert (Hall : Forall (fun a => size a <= String.length
                                     (JSON.serialize indent' a)) (x :: xs)).
    { eapply Forall_impl; [|exact IH]. intros a Ha. apply Ha. }
    specialize (H Hall). lia.
  - destruct props as [|kv xs]; [simpl; lia|].
    rewrite serialize_obj.
    set (indent' := (indent ++ JSON.gap)%string).
    change (size (VObj (kv :: xs)))
      with (S (list_sum (map (fun kv => S (size (snd kv))) (kv :: xs)))).
    rewrite !length_append.
    pose proof (@concat_length (string * value) (fun kv => size (snd kv))
                  (fun kv => (JSON.QuoteJSONString (fst kv) ++ ": "
                                ++ JSON.serialize indent' (snd kv))%string)
                  ("," ++ JSON.LF ++ indent') (kv :: xs)) as H.
    simpl String.length in *.
    assert (Hall : Forall (fun a : string * value =>
                             size (snd a)
                             <= String.length
                                  (JSON.QuoteJSONString (fst a) ++ ": "
                                     ++ JSON.serialize indent' (snd a)))
                          (kv :: xs)).
    { eapply Forall_impl; [|exact IH]. intros a Ha. simpl in Ha.
      rewrite !length_append. specialize (Ha indent'). lia. }
    specialize (H Hall). lia.
Qed.

Theorem parse_stringify (v : value) :
  well_formed v = true -> JSON.parse (JSON.stringify v) = Some v.
Proof.
  intros Hwf. unfold JSON.parse, JSON.stringify.
  pose proof (size_le_length v "") as Hsize.
  pose proof (@serialize_reads_back v Hwf ""
                (2 * String.length (JSON.serialize "" v) + 1) ""
                eq_refl ltac:(lia) eq_refl) as H.
  rewrite append_nil_r in H. rewrite H. reflexivity.
Qed.

(** ** The fuel of [JSON.parse] *)

Lemma skip_ws_length (s : string) :
  String.length (JSON.skip_ws s) <= String.length s.
Proof.
  induction s as [|c s IH]; simpl; [lia|].
  destruct (JSON.is_ws c); simpl; lia.
Qed.

Lemma skip_ws_cons_length (s : string) (c : ascii) (rest : string) :
  JSON.skip_ws s = String c rest -> String.length rest < String.length s.
Proof.
  intros H. pose proof (skip_ws_length s) as Hl. rewrite H in Hl.
  simpl in Hl. lia.
Qed.

Lemma expect_length (lit s rest : string) :
  JSON.expect lit s = Some rest -> String.length rest <= String.length s.
Proof.
  revert s. induction lit as [|a lit IH]; intros [|b s]; simpl;
    try discriminate.
  - intros [= <-]. simpl. lia.
  - intros [= <-]. simpl. lia.
  - destruct (Ascii.eqb a b); [|discriminate].
    intros H. apply IH in H. lia.
Qed.

Lemma cons_char_some (c : ascii) (r : option (string * string))
    (str rest : string) :
  JSON.cons_char c r = Some (str, rest) ->
  exists str', r = Some (str', rest).
Proof.
  destruct r as [[str' rest']|]; simpl; [|discriminate].
  intros [= <- <-]. eauto.
Qed.

Lemma parse_chars_length (s str rest : string) :
  JSON.parse_chars s = Some (str, rest) ->
  String.length rest < String.length s.
Proof.
  remember (String.length s) as n eqn:Hn. revert s str rest Hn.
  induction n as [n IH] using (well_founded_induction lt_wf).
  intros [|c s] str rest Hn; simpl; [discriminate|].
  destruct (Ascii.eqb c JSON.dquote).
  { intros [= <- <-]. simpl in Hn. lia. }
  destruct (Ascii.eqb c JSON.backslash).
  - destruct s as [|e s]; [discriminate|].
    destruct (Ascii.eqb e "u").
    + destruct s as [|h1 [|h2 [|h3 [|h4 s]]]]; try discriminate.
      destruct (JSON.unicode_unescape h1 h2 h3 h4); [|discriminate].
      intros H. apply cons_char_some in H. destruct H as [str' H].
      apply (IH (String.length s)) in H; simpl in *; trivial; lia.
    + destruct (JSON.unescape e); [|discriminate].
      intros H. apply cons_char_some in H. destruct H as [str' H].
      apply (IH (String.length s)) in H; simpl in *; trivial; lia.
  - destruct (nat_of_ascii c <? 32); [discriminate|].
    intros H. apply cons_char_some in H. destruct H as [str' H].
    apply (IH (String.length s)) in H; simpl in *; trivial; lia.
Qed.

Lemma scan_digits_length (s : string) :
  String.length (snd (JSON.scan_digits s)) <= String.length s.
Proof.
  induction s as [|c s IH]; simpl; [lia|].
  destruct (JSON.digit_of c); simpl; [|lia].
  destruct (JSON.scan_digits s). simpl in *. lia.
Qed.

Lemma parse_int_length (s : string) (d : Decimal.uint) (rest : string) :
  JSON.parse_int s = Some (d, rest) ->
  String.length rest < String.length s.
Proof.
  destruct s as [|c s]; simpl; [discriminate|].
  destruct (JSON.digit_of c); [|discriminate].
  destruct (Ascii.eqb c "0").
  - intros [= <- <-]. lia.
  - pose proof (scan_digits_length s) as Hl.
    destruct (JSON.scan_digits s). intros [= <- <-]. simpl in Hl. lia.
Qed.

Lemma parse_number_length (s : string) (v : value) (rest : string) :
  JSON.parse_number s = Some (v, rest) ->
  String.length rest < String.length s.
Proof.
  destruct s as [|c s]; [discriminate|]. unfold JSON.parse_number.
  destruct (Ascii.eqb c "-").
  - destruct (JSON.parse_int s) as [[d r]|] eqn:E; [|discriminate].
    intros [= <- <-]. apply parse_int_length in E. simpl. lia.
  - destruct (JSON.parse_int (String c s)) as [[d r]|] eqn:E; [|discriminate].
    intros [= <- <-]. apply parse_int_length in E. exact E.
Qed.

Section Levels.
Variables (value_ value_' : string -> option (value * string)).
Variables (elements elements' : string -> option (list value * string)).
Variables (members members'
           : string -> option (list (string * value) * string)).

Lemma with_value_length (v v' : value) (r : option string) (s rest : string) :
  (forall rest', r = Some rest' -> String.length rest' <= String.length s) ->
  JSON.with_value v r = Some (v', rest) ->
  String.length rest <= String.length s.
Proof.
  destruct r as [rest'|]; simpl; [|discriminate].
  intros H [= _ <-]. auto.
Qed.

Lemma value_level_length (s : string) (v : value) (rest : string) :
  (forall s' l r, elements s' = Some (l, r) ->
                  String.length r < String.length s') ->
  (forall s' l r, members s' = Some (l, r) ->
                  String.length r < String.length s') ->
  JSON.value_level elements members s = Some (v, rest) ->
  String.length rest < String.length s.
Proof.
  intros He Hm. unfold JSON.value_level.
  destruct (JSON.skip_ws s) as [|c s0] eqn:Hs; [discriminate|].
  apply skip_ws_cons_length in Hs.
  repeat match goal with
         | |- context [if ?b then _ else _] => destruct b
         end.
  - intros H. apply with_value_length with (s := s0) in H; [lia|].
    intros r. apply expect_length.
  - intros H. apply with_value_length with (s := s0) in H; [lia|].
    intros r. apply expect_length.
  - intros H. apply with_value_length with (s := s0) in H; [lia|].
    intros r. apply expect_length.
  - destruct (JSON.parse_chars s0) as [[str r]|] eqn:E; [|discriminate].
    intros [= _ <-]. apply parse_chars_length in E. lia.
  - destruct (JSON.skip_ws s0) as [|c' r'] eqn:E'; [discriminate|].
    apply skip_ws_cons_length in E'.
    destruct (Ascii.eqb c' "]"); [intros [= _ <-]; lia|].
    destruct (elements s0) as [[l r]|] eqn:E; [|discriminate].
    intros [= _ <-]. apply He in E. lia.
  - destruct (JSON.skip_ws s0) as [|c' r'] eqn:E'; [discriminate|].
    apply skip_ws_cons_length in E'.
    destruct (Ascii.eqb c' "}"); [intros [= _ <-]; lia|].
    destruct (members s0) as [[l r]|] eqn:E; [|discriminate].
    intros [= _ <-]. apply Hm in E. lia.
  - intros H. apply parse_number_length in H. simpl in H. lia.
Qed.

Lemma value_level_mono (s : string) (r : value * string) :
  (forall s' r', String.length s' < String.length s ->
                 elements s' = Some r' -> elements' s' = Some r') ->
  (forall s' r', String.length s' < String.length s ->
                 members s' = Some r' -> members' s' = Some r') ->
  JSON.value_level elements members s = Some r ->
  JSON.value_level elements' members' s = Some r.
Proof.
  intros He Hm. unfold JSON.value_level.
  destruct (JSON.skip_ws s) as [|c s0] eqn:Hs; [discriminate|].
  apply skip_ws_cons_length in Hs.
  repeat match goal with
         | |- context [if Ascii.eqb c ?x then _ else _] =>
             destruct (Ascii.eqb c x)
         end; trivial.
  - destruct (JSON.skip_ws s0) as [|c' r']; [discriminate|].
    destruct (Ascii.eqb c' "]"); trivial.
    destruct (elements s0) as [[l r0]|] eqn:E; [|discriminate].
    rewrite (He _ _ Hs E). trivial.
  - destruct (JSON.skip_ws s0) as [|c' r']; [discriminate|].
    destruct (Ascii.eqb c' "}"); trivial.
    destruct (members s0) as [[l r0]|] eqn:E; [|discriminate].
    rewrite (Hm _ _ Hs E). trivial.
Qed.

Lemma elements_level_length (s : string) (l : list value) (rest : string) :
  (forall s' v r, value_ s' = Some (v, r) ->
                  String.length r < String.length s') ->
  (forall s' l r, elements s' = Some (l, r) ->
                  String.length r < String.length s') ->
  JSON.elements_level value_ elements s = Some (l, rest) ->
  String.length rest < String.length s.
Proof.
  intros Hv He. unfold JSON.elements_level.
  destruct (value_ s) as [[v r]|] eqn:E; [|discriminate].
  apply Hv in E.
  destruct (JSON.skip_ws r) as [|c r'] eqn:E'; [discriminate|].
  apply skip_ws_cons_length in E'.
  destruct (Ascii.eqb c ",").
  - destruct (elements r') as [[vs r'']|] eqn:E''; [|discriminate].
    intros [= _ <-]. apply He in E''. lia.
  - destruct (Ascii.eqb c "]"); [|discriminate].
    intros [= _ <-]. lia.
Qed.

Lemma elements_level_mono (s : string) (r : list value * string) :
  (forall s' v r', value_ s' = Some (v, r') ->
                   String.length r' < String.length s') ->
  (forall r', value_ s = Some r' -> value_' s = Some r') ->
  (forall s' r', String.length s' + 2 <= String.length s ->
                 elements s' = Some r' -> elements' s' = Some r') ->
  JSON.elements_level value_ elements s = Some r ->
  JSON.elements_level value_' elements' s = Some r.
Proof.
  intros Hlen Hv He. unfold JSON.elements_level.
  destruct (value_ s) as [[v r0]|] eqn:E; [|discriminate].
  rewrite (Hv _ eq_refl). apply Hlen in E.
  destruct (JSON.skip_ws r0) as [|c r'] eqn:E'; [discriminate|].
  apply skip_ws_cons_length in E'.
  destruct (Ascii.eqb c ","); trivial.
  destruct (elements r') as [[vs r'']|] eqn:E''; [|discriminate].
  rewrite (He r' _ ltac:(lia) E''). trivial.
Qed.

Lemma members_level_length (s : string) (l : list (string * value))
    (rest : string) :
  (forall s' v r, value_ s' = Some (v, r) ->
                  String.length r < String.length s') ->
  (forall s' l r, members s' = Some (l, r) ->
                  String.length r < String.length s') ->
  JSON.members_level value_ members s = Some (l, rest) ->
  String.length rest < String.length s.
Proof.
  intros Hv Hm. unfold JSON.members_level.
  destruct (JSON.skip_ws s) as [|q s0] eqn:Hs; [discriminate|].
  apply skip_ws_cons_length in Hs.
  destruct (Ascii.eqb q JSON.dquote); [|discriminate].
  destruct (JSON.parse_chars s0) as [[k r1]|] eqn:E1; [|discriminate].
  apply parse_chars_length in E1.
  destruct (JSON.skip_ws r1) as [|colon r2] eqn:E2; [discriminate|].
  apply skip_ws_cons_length in E2.
  destruct (Ascii.eqb colon ":"); [|discriminate].
  destruct (value_ r2) as [[v r3]|] eqn:E3; [|discriminate].
  apply Hv in E3.
  destruct (JSON.skip_ws r3) as [|c r4] eqn:E4; [discriminate|].
  apply skip_ws_cons_length in E4.
  destruct (Ascii.eqb c ",").
  - destruct (members r4) as [[ms r5]|] eqn:E5; [|discriminate].
    intros [= _ <-]. apply Hm in E5. lia.
  - destruct (Ascii.eqb c "}"); [|discriminate].
    intros [= _ <-]. lia.
Qed.

Lemma members_level_mono (s : string)
    (r : list (string * value) * string) :
  (forall s' v r', value_ s' = Some (v, r') ->
                   String.length r' < String.length s') ->
  (forall s' r', String.length s' + 3 <= String.length s ->
                 value_ s' = Some r' -> value_' s' = Some r') ->
  (forall s' r', String.length s' + 5 <= String.length s ->
                 members s' = Some r' -> members' s' = Some r') ->
  JSON.members_level value_ members s = Some r ->
  JSON.members_level value_' members' s = Some r.
Proof.
  intros Hlen Hv Hm. unfold JSON.members_level.
  destruct (JSON.skip_ws s) as [|q s0] eqn:Hs; [discriminate|].
  apply skip_ws_cons_length in Hs.
  destruct (Ascii.eqb q JSON.dquote); [|discriminate].
  destruct (JSON.parse_chars s0) as [[k r1]|] eqn:E1; [|discriminate].
  apply parse_chars_length in E1.
  destruct (JSON.skip_ws r1) as [|colon r2] eqn:E2; [discriminate|].
  apply skip_ws_cons_length in E2.
  destruct (Ascii.eqb colon ":"); [|discriminate].
  destruct (value_ r2) as [[v r3]|] eqn:E3; [|discriminate].
  rewrite (Hv r2 _ ltac:(lia) E3). apply Hlen in E3.
  destruct (JSON.skip_ws r3) as [|c r4] eqn:E4; [discriminate|].
  apply skip_ws_cons_length in E4.
  destruct (Ascii.eqb c ","); trivial.
  destruct (members r4) as [[ms r5]|] eqn:E5; [|discriminate].
  rewrite (Hm r4 _ ltac:(lia) E5). trivial.
Qed.
End Levels.

(** Every successful call consumes input. *)
Lemma parse_consumes (fuel : nat) :
  (forall s v r, JSON.parse_value fuel s = Some (v, r) ->
                 String.length r < String.length s) /\
  (forall s l r, JSON.parse_elements fuel s = Some (l, r) ->
                 String.length r < String.length s) /\
  (forall s l r, JSON.parse_members fuel s = Some (l, r) ->
                 String.length r < String.length s).
Proof.
  induction fuel as [|fuel (IHv & IHe & IHm)];
    [repeat split; discriminate|].
  repeat split; intros s x r H.
  - eapply value_level_length; [exact IHe | exact IHm | exact H].
  - eapply elements_level_length; [exact IHv | exact IHe | exact H].
  - eapply members_level_length; [exact IHv | exact IHm | exact H].
Qed.

(** A level of fuel more changes no result. *)
Lemma parse_fuel_S (fuel : nat) :
  (forall s r, JSON.parse_value fuel s = Some r ->
               JSON.parse_value (S fuel) s = Some r) /\
  (forall s r, JSON.parse_elements fuel s = Some r ->
               JSON.parse_elements (S fuel) s = Some r) /\
  (forall s r, JSON.parse_members fuel s = Some r ->
               JSON.parse_members (S fuel) s = Some r).
Proof.
  induction fuel as [|fuel (IHv & IHe & IHm)];
    [repeat split; discriminate|].
  destruct (parse_consumes fuel) as (Hv & _ & _).
  repeat split; intros s r H.
  - eapply value_level_mono; [| |exact H]; intros s' r' _ H'.
    + apply IHe. exact H'.
    + apply IHm. exact H'.
  - eapply elements_level_mono; [exact Hv| | |exact H].
    + intros r'. apply IHv.
    + intros s' r' _. apply IHe.
  - eapply members_level_mono; [exact Hv| | |exact H]; intros s' r' _.
    + apply IHv.
    + apply IHm.
Qed.

Lemma parse_fuel_le (fuel fuel' : nat) :
  fuel <= fuel' ->
  (forall s r, JSON.parse_value fuel s = Some r ->
               JSON.parse_value fuel' s = Some r) /\
  (forall s r, JSON.parse_elements fuel s = Some r ->
               JSON.parse_elements fuel' s = Some r) /\
  (forall s r, JSON.parse_members fuel s = Some r ->
               JSON.parse_members fuel' s = Some r).
Proof.
  induction 1 as [|fuel' _ (IHv & IHe & IHm)]; [auto|].
  destruct (parse_fuel_S fuel') as (Hv & He & Hm).
  repeat split; auto.
Qed.

(** Twice the length of the input, and one or two more, is fuel enough
    for whatever any fuel achieves. *)
Lemma parse_fuel_enough (fuel : nat) :
  (forall s r, JSON.parse_value fuel s = Some r ->
               JSON.parse_value (2 * String.length s + 1) s = Some r) /\
  (forall s r, JSON.parse_elements fuel s = Some r ->
               JSON.parse_elements (2 * String.length s + 2) s = Some r) /\
  (forall s r, JSON.parse_members fuel s = Some r ->
               JSON.parse_members (2 * String.length s + 2) s = Some r).
Proof.
  induction fuel as [|fuel (IHv & IHe & IHm)];
    [repeat split; discriminate|].
  destruct (parse_consumes fuel) as (Hv & _ & _).
  repeat split; intros s r H.
  - replace (2 * String.length s + 1) with (S (2 * String.length s)) by lia.
    eapply value_level_mono; [| |exact H]; intros s' r' Hlen H'.
    + apply IHe in H'.
      eapply (parse_fuel_le (fuel := 2 * String.length s' + 2)); [lia|].
      exact H'.
    + apply IHm in H'.
      eapply (parse_fuel_le (fuel := 2 * String.length s' + 2)); [lia|].
      exact H'.
  - replace (2 * String.length s + 2)
      with (S (2 * String.length s + 1)) by lia.
    eapply elements_level_mono; [exact Hv| | |exact H].
    + intros r'. apply IHv.
    + intros s' r' Hlen H'. apply IHe in H'.
      eapply (parse_fuel_le (fuel := 2 * String.length s' + 2)); [lia|].
      exact H'.
  - replace (2 * String.length s + 2)
      with (S (2 * String.length s + 1)) by lia.
    eapply members_level_mono; [exact Hv| | |exact H];
      intros s' r' Hlen H'.
    + apply IHv in H'.
      eapply (parse_fuel_le (fuel := 2 * String.length s' + 1)); [lia|].
      exact H'.
    + apply IHm in H'.
      eapply (parse_fuel_le (fuel := 2 * String.length s' + 2)); [lia|].
      exact H'.
Qed.

(** [JSON.parse] finds the value whenever some depth of descent does:
    its [None] is a syntax error, never a lack of fuel. *)
Theorem parse_any_fuel (text : string) (fuel : nat) (v : value)
    (rest : string) :
  JSON.parse_value fuel text = Some (v, rest) ->
  JSON.skip_ws rest = "" ->
  JSON.parse text = Some v.
Proof.
  intros H Hrest. unfold JSON.parse.
  destruct (parse_fuel_enough fuel) as (Hv & _ & _).
  rewrite (Hv _ _ H), Hrest. reflexivity.
Qed.

(** ** What [JSON.parse] returns *)

Lemma put_keys (k : string) (v : value) (props : list (string * value)) :
  map fst (JSON.put k v props)
  = if existsb (String.eqb k) (map fst props)
    then map fst props else map fst props ++ [k].
Proof.
  induction props as [|[k' v'] props IH]; simpl; [reflexivity|].
  destruct (String.eqb k k'); simpl; [reflexivity|].
  rewrite IH. destruct (existsb (String.eqb k) (map fst props)); reflexivity.
Qed.

Lemma distinct_snoc (keys : list string) (k : string) :
  distinct keys = true ->
  existsb (String.eqb k) keys = false ->
  distinct (keys ++ [k]) = true.
Proof.
  induction keys as [|a keys IH]; simpl; [reflexivity|].
  intros Hd Hk. apply andb_true_iff in Hd. destruct Hd as [Ha Hd].
  apply orb_false_iff in Hk. destruct Hk as [Hka Hk].
  rewrite existsb_app. simpl. rewrite String.eqb_sym, Hka.
  apply negb_true_iff in Ha. rewrite Ha. simpl. apply IH; assumption.
Qed.

Lemma put_distinct (k : string) (v : value) (props : list (string * value)) :
  distinct (map fst props) = true ->
  distinct (map fst (JSON.put k v props)) = true.
Proof.
  intros H. rewrite put_keys.
  destruct (existsb (String.eqb k) (map fst props)) eqn:E; trivial.
  apply distinct_snoc; assumption.
Qed.

Lemma put_well_formed (k : string) (v : value)
    (props : list (string * value)) :
  well_formed v = true ->
  forallb (fun kv => well_formed (snd kv)) props = true ->
  forallb (fun kv => well_formed (snd kv)) (JSON.put k v props) = true.
Proof.
  intros Hv. induction props as [|[k' v'] props IH]; simpl.
  - rewrite Hv. reflexivity.
  - intros H. apply andb_true_iff in H. destruct H as [Hv' H].
    destruct (String.eqb k k'); simpl.
    + rewrite Hv, H. reflexivity.
    + rewrite Hv', IH by exact H. reflexivity.
Qed.

Lemma object_of_members_well_formed (ms : list (string * value)) :
  forallb (fun kv => well_formed (snd kv)) ms = true ->
  well_formed (JSON.object_of_members ms) = true.
Proof.
  unfold JSON.object_of_members.
  assert (H : forall acc,
             well_formed (VObj acc) = true ->
             forallb (fun kv => well_formed (snd kv)) ms = true ->
             well_formed
               (VObj (fold_left
                        (fun props kv => JSON.put (fst kv) (snd kv) props)
                        ms acc)) = true).
  { induction ms as [|[k v] ms IH]; intros acc Hacc Hms; simpl; trivial.
    simpl in Hms. apply andb_true_iff in Hms. destruct Hms as [Hv Hms].
    apply IH; trivial.
    change (well_formed (VObj acc))
      with (distinct (map fst acc)
            && forallb (fun kv => well_formed (snd kv)) acc) in Hacc.
    apply andb_true_iff in Hacc. destruct Hacc as [Hd Hw].
    change (distinct (map fst (JSON.put k v acc))
            && forallb (fun kv => well_formed (snd kv)) (JSON.put k v acc)
            = true).
    rewrite put_distinct, put_well_formed; trivial. }
  intros Hms. apply H; trivial.
Qed.

Section LevelsWellFormed.
Variable value_ : string -> option (value * string).
Variable elements : string -> option (list value * string).
Variable members : string -> option (list (string * value) * string).
Hypothesis value_wf :
  forall s v r, value_ s = Some (v, r) -> well_formed v = true.
Hypothesis elements_wf :
  forall s l r, elements s = Some (l, r) -> forallb well_formed l = true.
Hypothesis members_wf :
  forall s l r, members s = Some (l, r) ->
                forallb (fun kv => well_formed (snd kv)) l = true.

Lemma value_level_well_formed (s : string) (v : value) (r : string) :
  JSON.value_level elements members s = Some (v, r) -> well_formed v = true.
Proof.
  unfold JSON.value_level.
  destruct (JSON.skip_ws s) as [|c s0]; [discriminate|].
  repeat match goal with
         | |- context [if Ascii.eqb c ?x then _ else _] =>
             destruct (Ascii.eqb c x)
         end.
  - destruct (JSON.expect "ull" s0); simpl; [|discriminate].
    intros [= <- _]. reflexivity.
  - destruct (JSON.expect "rue" s0); simpl; [|discriminate].
    intros [= <- _]. reflexivity.
  - destruct (JSON.expect "alse" s0); simpl; [|discriminate].
    intros [= <- _]. reflexivity.
  - destruct (JSON.parse_chars s0) as [[str r']|]; [|discriminate].
    intros [= <- _]. reflexivity.
  - destruct (JSON.skip_ws s0) as [|c' r']; [discriminate|].
    destruct (Ascii.eqb c' "]"); [intros [= <- _]; reflexivity|].
    destruct (elements s0) as [[l r'']|] eqn:E; [|discriminate].
    intros [= <- _]. eapply elements_wf; exact E.
  - destruct (JSON.skip_ws s0) as [|c' r']; [discriminate|].
    destruct (Ascii.eqb c' "}"); [intros [= <- _]; reflexivity|].
    destruct (members s0) as [[l r'']|] eqn:E; [|discriminate].
    intros [= <- _]. apply object_of_members_well_formed.
    eapply members_wf; exact E.
  - unfold JSON.parse_number.
    destruct (Ascii.eqb c "-").
    + destruct (JSON.parse_int s0) as [[d r']|]; [|discriminate].
      intros [= <- _]. reflexivity.
    + destruct (JSON.parse_int (String c s0)) as [[d r']|]; [|discriminate].
      intros [= <- _]. reflexivity.
Qed.

Lemma elements_level_well_formed (s : string) (l : list value) (r : string) :
  JSON.elements_level value_ elements s = Some (l, r) ->
  forallb well_formed l = true.
Proof.
  unfold JSON.elements_level.
  destruct (value_ s) as [[v r0]|] eqn:E; [|discriminate].
  apply value_wf in E.
  destruct (JSON.skip_ws r0) as [|c r']; [discriminate|].
  destruct (Ascii.eqb c ",").
  - destruct (elements r') as [[vs r'']|] eqn:E'; [|discriminate].
    intros [= <- _]. simpl. rewrite E. eapply elements_wf; exact E'.
  - destruct (Ascii.eqb c "]"); [|discriminate].
    intros [= <- _]. simpl. rewrite E. reflexivity.
Qed.

Lemma members_level_well_formed (s : string) (l : list (string * value))
    (r : string) :
  JSON.members_level value_ members s = Some (l, r) ->
  forallb (fun kv => well_formed (snd kv)) l = true.
Proof.
  unfold JSON.members_level.
  destruct (JSON.skip_ws s) as [|q s0]; [discriminate|].
  destruct (Ascii.eqb q JSON.dquote); [|discriminate].
  destruct (JSON.parse_chars s0) as [[k r1]|]; [|discriminate].
  destruct (JSON.skip_ws r1) as [|colon r2]; [discriminate|].
  destruct (Ascii.eqb colon ":"); [|discriminate].
  destruct (value_ r2) as [[v r3]|] eqn:E; [|discriminate].
  apply value_wf in E.
  destruct (JSON.skip_ws r3) as [|c r4]; [discriminate|].
  destruct (Ascii.eqb c ",").
  - destruct (members r4) as [[ms r5]|] eqn:E'; [|discriminate].
    intros [= <- _]. simpl. rewrite E. eapply members_wf; exact E'.
  - destruct (Ascii.eqb c "}"); [|discriminate].
    intros [= <- _]. simpl. rewrite E. reflexivity.
Qed.
End LevelsWellFormed.

Lemma parse_value_well_formed (fuel : nat) :
  (forall s v r, JSON.parse_value fuel s = Some (v, r) ->
                 well_formed v = true) /\
  (forall s l r, JSON.parse_elements fuel s = Some (l, r) ->
                 forallb well_formed l = true) /\
  (forall s l r, JSON.parse_members fuel s = Some (l, r) ->
                 forallb (fun kv => well_formed (snd kv)) l = true).
Proof.
  induction fuel as [|fuel (IHv & IHe & IHm)];
    [repeat split; discriminate|].
  repeat split; intros s x r H.
  - eapply value_level_well_formed; [exact IHe | exact IHm | exact H].
  - eapply elements_level_well_formed; [exact IHv | exact IHe | exact H].
  - eapply members_level_well_formed; [exact IHv | exact IHm | exact H].
Qed.

(** What [JSON.parse] returns has no object with two properties of one
    name. *)
Theorem parse_well_formed (text : string) (v : value) :
  JSON.parse text = Some v -> well_formed v = true.
Proof.
  unfold JSON.parse.
  destruct (JSON.parse_value _ text) as [[v' r]|] eqn:E; [|discriminate].
  destruct (JSON.skip_ws r); [|discriminate].
  intros [= <-].
  destruct (parse_value_well_formed (2 * String.length text + 1))
    as (Hv & _ & _).
  eapply Hv; exact E.
Qed.

(** ** Import *)

Lemma state_unchanged_after (effects : list effect) :
  state_unchanged effects ->
  forall current, state_after current effects = current.
Proof.
  unfold state_unchanged, state_after.
  induction effects as [|e effects IH]; intros H current; simpl;
    [reflexivity|].
  destruct e as [m|m| |v];
    try (apply IH; intros v' Hv'; apply (H v'); right; exact Hv').
  elim (H v). left. reflexivity.
Qed.

(** The check of [handleImportData] accepts exactly the objects with an
    array under [sessions]. *)
Lemma structural_check (importedData : value) :
  (exists x, sessions_of importedData = Some x /\
             negb (truthy x) || negb (Array_isArray x) = false)
  <-> has_sessions_array importedData.
Proof.
  split.
  - intros (x & Hx & Hcheck). apply orb_false_iff in Hcheck.
    destruct Hcheck as [_ Harr]. apply negb_false_iff in Harr.
    destruct x as [[| | | |items|]|]; try discriminate Harr.
    destruct importedData as [| | | | |props]; try discriminate Hx.
    exists props, items. simpl in Hx. split; congruence.
  - intros (props & items & -> & Hl). exists (Some (VArr items)).
    simpl. rewrite Hl. auto.
Qed.

(** The effects of an import, by cases on the file. *)
Lemma handleImportData_cases (st : AppState) (text : string)
    (confirmed : bool) :
  let effects := handleImportData st (Some text) confirmed in
  (JSON.parse text = None /\
   effects = [ConsoleError; Alert failure_message]) \/
  (exists importedData,
      JSON.parse text = Some importedData /\
      ((~ has_sessions_array importedData /\
        (effects = [ConsoleError; Alert failure_message] \/
         effects = [Alert invalid_message])) \/
       (has_sessions_array importedData /\
        ((sessions st <> [] /\ confirmed = false /\
          effects = [Confirm confirm_message]) \/
         (sessions st <> [] /\ confirmed = true /\
          effects = [Confirm confirm_message; SetState importedData;
                     Alert success_message]) \/
         (sessions st = [] /\
          effects = [SetState importedData; Alert success_message]))))).
Proof.
  unfold handleImportData, onload_try.
  destruct (JSON.parse text) as [importedData|]; [right|left; auto].
  exists importedData. split; [reflexivity|].
  destruct (sessions_of importedData) as [x|] eqn:Hx.
  - destruct (negb (truthy x) || negb (Array_isArray x)) eqn:Hcheck.
    + left. split; [|auto].
      intros Hs. apply structural_check in Hs.
      destruct Hs as (x' & Hx' & Hcheck'). congruence.
    + right. split; [apply structural_check; eauto|].
      destruct (sessions st) as [|s l]; simpl; [auto|].
      destruct confirmed; simpl.
      * right. left. repeat split; congruence.
      * left. repeat split; congruence.
  - left. split; [|auto].
    intros Hs. apply structural_check in Hs.
    destruct Hs as (x' & Hx' & _). congruence.
Qed.

Ltac effects_cases st text confirmed :=
  let H := fresh "H" in
  let v := fresh "importedData" in
  destruct (handleImportData_cases st text confirmed)
    as [[? H]|(v & ? & [[? [H|H]]|[? [(? & ? & H)|[(? & ? & H)|[? H]]]]])];
  rewrite H in *; clear H.



Lemma import_into_empty :
  handleImportData Sample.empty (Some Sample.backup) true
  = [SetState (state_object Sample.journal); Alert success_message].
Proof. vm_compute. reflexivity. Qed.

Lemma import_into_journal :
  handleImportData Sample.journal (Some Sample.backup) true
  = [Confirm confirm_message; SetState (state_object Sample.journal);
     Alert success_message].
Proof. vm_compute. reflexivity. Qed.




(** ** Export and import, back to back *)

Lemma map_injective (A B : Type) (f : A -> B) :
  (forall a a', f a = f a' -> a = a') ->
  forall l l', map f l = map f l' -> l = l'.
Proof.
  intros Hf. induction l as [|a l IH]; destruct l' as [|a' l']; simpl;
    try discriminate; trivial.
  intros [= Ha Hl]. f_equal; auto.
Qed.

Lemma trade_object_injective (t t' : Trade.t) :
  trade_object t = trade_object t' -> t = t'.
Proof.
  destruct t, t'. unfold trade_object. simpl. intros [= -> ->]. reflexivity.
Qed.

Lemma session_object_injective (s s' : Session.t) :
  session_object s = session_object s' -> s = s'.
Proof.
  destruct s, s'. unfold session_object. simpl.
  intros [= -> -> -> Htrades ->].
  apply (@map_injective _ _ trade_object trade_object_injective) in Htrades.
  subst. reflexivity.
Qed.

(** The object of a state determines the state: nothing of the state is
    left out of it. *)
Lemma state_object_injective (st st' : AppState) :
  state_object st = state_object st' -> st = st'.
Proof.
  destruct st as [l a], st' as [l' a']. unfold state_object. simpl.
  intros [= Hsessions Hactive].
  apply (@map_injective _ _ session_object session_object_injective)
    in Hsessions. subst l'.
  destruct a, a'; try discriminate Hactive; congruence.
Qed.



(** * Further properties of the component *)

(** ** The trade handlers, composed *)

Lemma with_trades_same (s : Session.t) :
  Session.with_trades s (Session.trades s) = s.
Proof. destruct s. reflexivity. Qed.

Lemma map_active_ids f active (l : list Session.t) :
  map Session.id (map_active f active l) = map Session.id l.
Proof.
  unfold map_active. rewrite map_map. apply map_ext. intros s.
  destruct (String.eqb (Session.id s) (Session.id active)); reflexivity.
Qed.

Lemma map_active_ext f g active (l : list Session.t) :
  (forall s, In s l -> Session.id s = Session.id active ->
             f (Session.trades s) = g (Session.trades s)) ->
  map_active f active l = map_active g active l.
Proof.
  intros H. apply map_ext_in. intros s Hs.
  destruct (String.eqb_spec (Session.id s) (Session.id active)); trivial.
  rewrite (H s Hs e). reflexivity.
Qed.

Lemma map_active_id active (l : list Session.t) :
  map_active (fun ts => ts) active l = l.
Proof.
  unfold map_active. apply map_unchanged. intros s _.
  destruct (String.eqb (Session.id s) (Session.id active)); trivial.
  apply with_trades_same.
Qed.

Lemma map_active_compose f g active active' (l : list Session.t) :
  Session.id active' = Session.id active ->
  map_active g active' (map_active f active l)
  = map_active (fun ts => g (f ts)) active l.
Proof.
  intros Hid. unfold map_active. rewrite map_map. apply map_ext. intros s.
  rewrite Hid.
  destruct (String.eqb (Session.id s) (Session.id active)) eqn:E; simpl;
    rewrite E; reflexivity.
Qed.

(** The active session after a trade handler: the same one, with its
    trades changed. *)
Lemma activeSession_map_active f active (st : AppState) :
  activeSession st = Some active ->
  activeSession
    {| sessions := map_active f active (sessions st);
       activeSessionId := activeSessionId st |}
  = Some (Session.with_trades active (f (Session.trades active))).
Proof.
  unfold activeSession. simpl.
  generalize (activeSessionId st) as a. intros a.
  induction (sessions st) as [|s l IH]; simpl; [discriminate|].
  destruct (String.eqb_spec (Session.id s) (Session.id active)) as [E|E].
  - simpl. destruct (strict_eq (Session.id s) a) eqn:Es.
    + intros [= <-]. reflexivity.
    + intros H. apply IH. exact H.
  - destruct (strict_eq (Session.id s) a) eqn:Es.
    + intros [= <-]. congruence.
    + intros H. apply IH. exact H.
Qed.

Lemma delete_append_trade (trade : Trade.t) (ts : list Trade.t) :
  delete_trade (Trade.id trade) (append_trade trade ts)
  = delete_trade (Trade.id trade) ts.
Proof.
  unfold delete_trade, append_trade. rewrite filter_app. simpl.
  rewrite String.eqb_refl. simpl. apply app_nil_r.
Qed.

Lemma update_trade_twice (u : Trade.t) (ts : list Trade.t) :
  update_trade u (update_trade u ts) = update_trade u ts.
Proof.
  unfold update_trade. rewrite map_map. apply map_ext. intros t.
  destruct (String.eqb (Trade.id t) (Trade.id u)) eqn:E.
  - rewrite String.eqb_refl. reflexivity.
  - rewrite E. reflexivity.
Qed.

Lemma delete_trade_twice (tradeId : string) (ts : list Trade.t) :
  delete_trade tradeId (delete_trade tradeId ts) = delete_trade tradeId ts.
Proof.
  unfold delete_trade. induction ts as [|t ts IH]; simpl; trivial.
  destruct (negb (String.eqb (Trade.id t) tradeId)) eqn:E; simpl.
  - rewrite E, IH. reflexivity.
  - exact IH.
Qed.

Lemma handleAddTrade_active (app : App) (trade : Trade.t)
    (active : Session.t) :
  activeSession (state app) = Some active ->
  handleAddTrade app trade
  = trade_handler (append_trade trade) (Some trade) active app.
Proof. intros H. unfold handleAddTrade. rewrite H. reflexivity. Qed.

Lemma handleUpdateTrade_active (app : App) (updatedTrade : Trade.t)
    (active : Session.t) :
  activeSession (state app) = Some active ->
  handleUpdateTrade app updatedTrade
  = trade_handler (update_trade updatedTrade) (Some updatedTrade) active app.
Proof. intros H. unfold handleUpdateTrade. rewrite H. reflexivity. Qed.

Lemma handleDeleteTrade_active (app : App) (tradeId : string)
    (active : Session.t) :
  activeSession (state app) = Some active ->
  handleDeleteTrade app tradeId
  = trade_handler (delete_trade tradeId) None active app.
Proof. intros H. unfold handleDeleteTrade. rewrite H. reflexivity. Qed.

Lemma trade_handler_active f sel active (app : App) :
  activeSession (state app) = Some active ->
  activeSession (state (trade_handler f sel active app))
  = Some (Session.with_trades active (f (Session.trades active))).
Proof. intros H. apply (activeSession_map_active f _ H). Qed.

Lemma trade_handler_twice f g sel sel' active active' (app : App) :
  Session.id active' = Session.id active ->
  trade_handler g sel' active' (trade_handler f sel active app)
  = trade_handler (fun ts => g (f ts)) sel' active app.
Proof.
  intros Hid. unfold trade_handler, setSelectedTrade, setState. simpl.
  rewrite map_active_compose by exact Hid. reflexivity.
Qed.

Lemma trade_handler_ext f g sel active (app : App) :
  (forall s, In s (sessions (state app)) ->
             Session.id s = Session.id active ->
             f (Session.trades s) = g (Session.trades s)) ->
  trade_handler f sel active app = trade_handler g sel active app.
Proof.
  intros H. unfold trade_handler. rewrite (map_active_ext f g active _ H).
  reflexivity.
Qed.

Lemma trade_handler_nothing sel active (app : App) :
  state (trade_handler (fun ts => ts) sel active app) = state app.
Proof.
  unfold trade_handler. simpl. rewrite map_active_id.
  destruct (state app). reflexivity.
Qed.

Lemma trade_handler_unchanged f sel active (app : App) :
  (forall s, In s (sessions (state app)) ->
             Session.id s = Session.id active ->
             f (Session.trades s) = Session.trades s) ->
  trade_handler f sel active app
  = {| state := state app; selectedTrade := sel |}.
Proof.
  intros H. rewrite (@trade_handler_ext f (fun ts => ts)) by exact H.
  pose proof (trade_handler_nothing sel active app) as Hst.
  unfold trade_handler, setSelectedTrade in *. simpl in *.
  rewrite Hst. reflexivity.
Qed.

(** X2: adding a trade and then deleting its id leaves what deleting
    that id alone leaves: the added trade is gone, and so is every
    trade that had its id. *)
Theorem delete_after_add (app : App) (trade : Trade.t) :
  handleDeleteTrade (handleAddTrade app trade) (Trade.id trade)
  = handleDeleteTrade app (Trade.id trade).
Proof.
  destruct (activeSession (state app)) as [active|] eqn:Hact.
  - rewrite (handleAddTrade_active _ _ Hact).
    rewrite (handleDeleteTrade_active _ _
               (trade_handler_active _ _ _ Hact)).
    rewrite (handleDeleteTrade_active _ _ Hact).
    rewrite trade_handler_twice by reflexivity.
    apply trade_handler_ext. intros s _ _. apply delete_append_trade.
  - unfold handleAddTrade. rewrite Hact. reflexivity.
Qed.

(** X3: updating with the same trade twice is updating once. *)
Theorem handleUpdateTrade_twice (app : App) (updatedTrade : Trade.t) :
  handleUpdateTrade (handleUpdateTrade app updatedTrade) updatedTrade
  = handleUpdateTrade app updatedTrade.
Proof.
  destruct (activeSession (state app)) as [active|] eqn:Hact.
  - rewrite (handleUpdateTrade_active _ _ Hact).
    rewrite (handleUpdateTrade_active _ _
               (trade_handler_active _ _ _ Hact)).
    rewrite trade_handler_twice by reflexivity.
    apply trade_handler_ext. intros s _ _. apply update_trade_twice.
  - unfold handleUpdateTrade. rewrite Hact, Hact. reflexivity.
Qed.

(** X4: deleting a trade id twice is deleting it once. *)
Theorem handleDeleteTrade_twice (app : App) (tradeId : string) :
  handleDeleteTrade (handleDeleteTrade app tradeId) tradeId
  = handleDeleteTrade app tradeId.
Proof.
  destruct (activeSession (state app)) as [active|] eqn:Hact.
  - rewrite (handleDeleteTrade_active _ _ Hact).
    rewrite (handleDeleteTrade_active _ _
               (trade_handler_active _ _ _ Hact)).
    rewrite trade_handler_twice by reflexivity.
    apply trade_handler_ext. intros s _ _. apply delete_trade_twice.
  - unfold handleDeleteTrade. rewrite Hact, Hact. reflexivity.
Qed.

Lemma update_trade_unknown (u : Trade.t) (ts : list Trade.t) :
  (forall t, In t ts -> Trade.id t <> Trade.id u) ->
  update_trade u ts = ts.
Proof.
  intros H. unfold update_trade. apply map_unchanged. intros t Ht.
  destruct (String.eqb_spec (Trade.id t) (Trade.id u)); trivial.
  elim (H t Ht). assumption.
Qed.

Lemma delete_trade_unknown (tradeId : string) (ts : list Trade.t) :
  (forall t, In t ts -> Trade.id t <> tradeId) ->
  delete_trade tradeId ts = ts.
Proof.
  intros H. unfold delete_trade. induction ts as [|t ts IH]; simpl; trivial.
  destruct (String.eqb_spec (Trade.id t) tradeId) as [E|E]; simpl.
  - elim (H t (or_introl eq_refl)). exact E.
  - rewrite IH; trivial. intros t' Ht'. apply H. right. exact Ht'.
Qed.

(** X5: updating a trade whose id no trade of the active session (nor
    of a session sharing its id) has changes no session and inserts
    nothing; the updated trade still becomes the selected one. *)
Theorem handleUpdateTrade_unknown (app : App) (updatedTrade : Trade.t)
    (active : Session.t) :
  activeSession (state app) = Some active ->
  (forall s t, In s (sessions (state app)) ->
               Session.id s = Session.id active ->
               In t (Session.trades s) ->
               Trade.id t <> Trade.id updatedTrade) ->
  handleUpdateTrade app updatedTrade
  = {| state := state app; selectedTrade := Some updatedTrade |}.
Proof.
  intros Hact Hunknown.
  rewrite (handleUpdateTrade_active _ _ Hact).
  apply trade_handler_unchanged. intros s Hs Hid.
  apply update_trade_unknown. intros t Ht. apply (Hunknown s t Hs Hid Ht).
Qed.

Lemma handleUpdateTrade_unknown_witness :
  handleUpdateTrade (Sample.app_of Sample.journal) Cases.fresh_trade
  = {| state := Sample.journal; selectedTrade := Some Cases.fresh_trade |}.
Proof.
  apply (@handleUpdateTrade_unknown (Sample.app_of Sample.journal)
           Cases.fresh_trade Sample.monday eq_refl).
  simpl. intros s t [<-|[<-|[]]] Hid; simpl in *;
    try discriminate Hid.
  intros [<-|[]]. simpl. discriminate.
Defined.

(** X6: deleting a trade id no trade of the active session (nor of a
    session sharing its id) has changes no session; the selection is
    cleared all the same. *)
Theorem handleDeleteTrade_unknown (app : App) (tradeId : string)
    (active : Session.t) :
  activeSession (state app) = Some active ->
  (forall s t, In s (sessions (state app)) ->
               Session.id s = Session.id active ->
               In t (Session.trades s) ->
               Trade.id t <> tradeId) ->
  handleDeleteTrade app tradeId
  = {| state := state app; selectedTrade := None |}.
Proof.
  intros Hact Hunknown.
  rewrite (handleDeleteTrade_active _ _ Hact).
  apply trade_handler_unchanged. intros s Hs Hid.
  apply delete_trade_unknown. intros t Ht. apply (Hunknown s t Hs Hid Ht).
Qed.

Lemma handleDeleteTrade_unknown_witness :
  handleDeleteTrade
    {| state := Sample.journal; selectedTrade := Some Sample.trade1 |} "t9"
  = {| state := Sample.journal; selectedTrade := None |}.
Proof.
  apply (@handleDeleteTrade_unknown
           {| state := Sample.journal; selectedTrade := Some Sample.trade1 |}
           "t9" Sample.monday eq_refl).
  simpl. intros s t [<-|[<-|[]]] Hid; simpl in *;
    try discriminate Hid.
  intros [<-|[]]. simpl. discriminate.
Defined.

Lemma filter_twice (A : Type) (p : A -> bool) (l : list A) :
  filter p (filter p l) = filter p l.
Proof.
  induction l as [|x l IH]; simpl; trivial.
  destruct (p x) eqn:E; simpl; [rewrite E, IH|]; trivial.
Qed.

Lemma filter_all (A : Type) (p : A -> bool) (l : list A) :
  (forall x, In x l -> p x = true) -> filter p l = l.
Proof.
  induction l as [|x l IH]; simpl; intros H; trivial.
  rewrite (H x (or_introl eq_refl)), IH; auto.
Qed.

(** The head of what is left after a deletion never has the deleted
    id. *)
Lemma strict_eq_head_other (sessionId : string) (l : list Session.t) :
  strict_eq sessionId
    (if 0 <? length (filter (other_than sessionId) l)
     then option_map Session.id
            (nth_error (filter (other_than sessionId) l) 0)
     else None)
  = false.
Proof.
  destruct (filter (other_than sessionId) l) as [|s l'] eqn:E; simpl; trivial.
  assert (Hin : In s (filter (other_than sessionId) l))
    by (rewrite E; left; reflexivity).
  apply filter_In in Hin. destruct Hin as [_ Hs]. unfold other_than in Hs.
  rewrite String.eqb_sym. apply negb_true_iff. exact Hs.
Qed.

(** X7: deleting a session id twice is deleting it once. *)
Theorem handleDeleteSession_twice (app : App) (sessionId : string) :
  handleDeleteSession (handleDeleteSession app sessionId) sessionId
  = handleDeleteSession app sessionId.
Proof.
  unfold handleDeleteSession, setSelectedTrade, setState. simpl.
  fold (other_than sessionId).
  rewrite filter_twice.
  destruct (strict_eq sessionId (activeSessionId (state app))) eqn:E.
  - rewrite strict_eq_head_other. reflexivity.
  - rewrite E. reflexivity.
Qed.

(** X8: creating a session under a new id and deleting it again gives
    back the sessions list, but not the active session: the first
    session becomes the active one, or none when there is no session. *)
Theorem create_then_delete (app : App) (session : Session.t) :
  ~ In (Session.id session) (map Session.id (sessions (state app))) ->
  state (handleDeleteSession (handleCreateSession app session)
                             (Session.id session))
  = {| sessions := sessions (state app);
       activeSessionId :=
         match sessions (state app) with
         | first :: _ => Some (Session.id first)
         | [] => None
         end |}.
Proof.
  intros Hfresh.
  assert (Hf : filter (other_than (Session.id session))
                 (sessions (state app) ++ [session])
               = sessions (state app)).
  { rewrite filter_app. simpl. unfold other_than at 2.
    rewrite String.eqb_refl. simpl. rewrite app_nil_r. apply filter_all.
    intros s Hs. unfold other_than. apply negb_true_iff.
    apply String.eqb_neq. intros E. apply Hfresh. rewrite <- E.
    apply in_map. exact Hs. }
  unfold handleDeleteSession, handleCreateSession, setSelectedTrade, setState.
  simpl. fold (other_than (Session.id session)).
  rewrite Hf, String.eqb_refl.
  destruct (sessions (state app)); reflexivity.
Qed.

Lemma create_then_delete_witness :
  state (handleDeleteSession
           (handleCreateSession
              (setState (Sample.app_of Sample.journal)
                 {| sessions := [Sample.monday; Sample.tuesday];
                    activeSessionId := Some "b" |})
              Cases.wednesday) "c")
  = Sample.journal.
Proof.
  apply (@create_then_delete
           (setState (Sample.app_of Sample.journal)
              {| sessions := [Sample.monday; Sample.tuesday];
                 activeSessionId := Some "b" |})
           Cases.wednesday).
  simpl. intros [H|[H|[]]]; discriminate H.
Defined.

(** X9: deleting an id no session has leaves the sessions list as it
    is, and the whole state when that id is not [activeSessionId]; when
    it is, the first session becomes the active one. *)
Theorem handleDeleteSession_unknown (app : App) (sessionId : string) :
  (forall s, In s (sessions (state app)) -> Session.id s <> sessionId) ->
  let app' := handleDeleteSession app sessionId in
  sessions (state app') = sessions (state app) /\
  (activeSessionId (state app) <> Some sessionId ->
   state app' = state app) /\
  (activeSessionId (state app) = Some sessionId ->
   activeSessionId (state app') =
     match sessions (state app) with
     | first :: _ => Some (Session.id first)
     | [] => None
     end).
Proof.
  intros Hunknown.
  assert (Hf : filter (other_than sessionId) (sessions (state app))
               = sessions (state app)).
  { apply filter_all. intros s Hs. unfold other_than.
    apply negb_true_iff. apply String.eqb_neq. apply Hunknown. exact Hs. }
  unfold handleDeleteSession, setSelectedTrade, setState. simpl.
  fold (other_than sessionId). rewrite Hf.
  split; [reflexivity|]. split.
  - intros Hother.
    destruct (strict_eq sessionId (activeSessionId (state app))) eqn:E.
    + apply strict_eq_true in E. contradiction.
    + destruct (state app). reflexivity.
  - intros Hactive. apply strict_eq_true in Hactive. rewrite Hactive.
    destruct (sessions (state app)); reflexivity.
Qed.

Lemma handleDeleteSession_unknown_witness :
  state (handleDeleteSession (Sample.app_of Sample.journal) "zz")
  = Sample.journal /\
  activeSessionId
    (state (handleDeleteSession (Sample.app_of Sample.dangling) "zz"))
  = Some "a".
Proof.
  split.
  - apply (@handleDeleteSession_unknown (Sample.app_of Sample.journal) "zz").
    + simpl. intros s [<-|[<-|[]]]; simpl; discriminate.
    + simpl. discriminate.
  - apply (@handleDeleteSession_unknown (Sample.app_of Sample.dangling) "zz").
    + simpl. intros s [<-|[<-|[]]]; simpl; discriminate.
    + reflexivity.
Defined.

(** ** What every run of events keeps *)

Lemma NoDup_snoc (A : Type) (l : list A) (x : A) :
  NoDup l -> ~ In x l -> NoDup (l ++ [x]).
Proof.
  induction 1 as [|y l Hy _ IH]; simpl; intros Hx.
  - constructor; [intros []|constructor].
  - constructor.
    + rewrite in_app_iff. simpl. intuition congruence.
    + apply IH. tauto.
Qed.

Lemma NoDup_ids_filter (p : Session.t -> bool) (l : list Session.t) :
  NoDup (map Session.id l) -> NoDup (map Session.id (filter p l)).
Proof.
  induction l as [|s l IH]; simpl; intros H; [constructor|].
  inversion H as [|? ? Hs Hl]; subst.
  destruct (p s); simpl; [|auto].
  constructor; [|auto].
  intros Hin. apply Hs. apply in_map_iff in Hin.
  destruct Hin as (s' & <- & Hs'). apply filter_In in Hs'.
  apply in_map. tauto.
Qed.

Lemma consistent_create (app : App) (session : Session.t) :
  consistent (state app) ->
  ~ In (Session.id session) (map Session.id (sessions (state app))) ->
  consistent (state (handleCreateSession app session)).
Proof.
  intros [Hnd _] Hfresh. split; simpl; rewrite map_app; simpl.
  - apply NoDup_snoc; assumption.
  - apply in_or_app. right. left. reflexivity.
Qed.

Lemma consistent_select (app : App) (sessionId : string) :
  consistent (state app) ->
  In sessionId (map Session.id (sessions (state app))) ->
  consistent (state (handleSelectSession app sessionId)).
Proof. intros [Hnd _] Hin. split; simpl; assumption. Qed.

Lemma consistent_delete (app : App) (sessionId : string) :
  consistent (state app) ->
  consistent (state (handleDeleteSession app sessionId)).
Proof.
  intros [Hnd Hact]. split; simpl; fold (other_than sessionId).
  - apply NoDup_ids_filter. exact Hnd.
  - destruct (strict_eq sessionId (activeSessionId (state app))) eqn:E.
    + destruct (filter (other_than sessionId) (sessions (state app)))
        as [|s l]; simpl; auto.
    + destruct (activeSessionId (state app)) as [a|].
      * apply in_map_iff in Hact. destruct Hact as (s & <- & Hs).
        apply in_map. apply filter_In. split; trivial.
        unfold other_than. simpl in E. rewrite String.eqb_sym, E.
        reflexivity.
      * rewrite Hact. reflexivity.
Qed.

Lemma consistent_trade_handler f sel active (app : App) :
  consistent (state app) ->
  consistent (state (trade_handler f sel active app)).
Proof.
  intros [Hnd Hact]. unfold consistent, trade_handler. simpl.
  rewrite map_active_ids. split; trivial.
  destruct (activeSessionId (state app)); trivial.
  rewrite Hact. reflexivity.
Qed.

Lemma consistent_dispatch (app : App) (e : event) :
  consistent (state app) -> expected app e ->
  consistent (state (dispatch app e)).
Proof.
  intros Hc He.
  assert (Hadd : forall trade,
             consistent (state (handleAddTrade app trade))).
  { intros trade.
    destruct (activeSession (state app)) as [active|] eqn:Hact.
    - rewrite (handleAddTrade_active _ _ Hact).
      apply consistent_trade_handler. exact Hc.
    - unfold handleAddTrade. rewrite Hact. exact Hc. }
  destruct e as [session|sessionId|sessionId|trade|trade|u|tradeId|trade|];
    simpl; try exact Hc.
  - apply consistent_create; assumption.
  - apply consistent_select; assumption.
  - apply consistent_delete; assumption.
  - apply Hadd.
  - unfold handleQuickAddTrade.
    destruct (falsy (activeSessionId (state app))); simpl; [exact Hc|].
    apply Hadd.
  - destruct (activeSession (state app)) as [active|] eqn:Hact.
    + rewrite (handleUpdateTrade_active _ _ Hact).
      apply consistent_trade_handler. exact Hc.
    + unfold handleUpdateTrade. rewrite Hact. exact Hc.
  - destruct (activeSession (state app)) as [active|] eqn:Hact.
    + rewrite (handleDeleteTrade_active _ _ Hact).
      apply consistent_trade_handler. exact Hc.
    + unfold handleDeleteTrade. rewrite Hact. exact Hc.
Qed.

(** X10: when a created session always brings an id no session has and
    a selected id is always the id of a listed session, every run of
    events from a consistent state ends in a consistent state: the
    session ids stay pairwise distinct, and [activeSessionId] stays the
    id of a session, or [null] with no session at all. *)
Theorem run_consistent (app : App) (events : list event) :
  consistent (state app) ->
  all_expected app events ->
  consistent (state (run app events)).
Proof.
  revert app. induction events as [|e events IH]; intros app Hc Hall; simpl.
  - exact Hc.
  - destruct Hall as [He Hall]. apply IH; trivial.
    apply consistent_dispatch; assumption.
Qed.

Lemma run_consistent_witness :
  consistent
    (state (run (Sample.app_of Sample.empty)
              [CreateSession Sample.monday; AddTrade Sample.trade2;
               CreateSession Sample.tuesday; SelectSession "a";
               DeleteSession "a"; QuickAddTrade Sample.trade1;
               SelectTrade Sample.trade1; UpdateTrade Sample.trade1';
               Back; DeleteTrade "t1"; DeleteSession "b"])).
Proof.
  apply run_consistent.
  - split; [constructor | reflexivity].
  - simpl. repeat split; try exact I.
    + intros [].
    + intros [H|[]]. discriminate H.
    + left. reflexivity.
Defined.

(** X11: in a consistent state there is an active session unless there
    is no session at all, so the welcome screen shows exactly when no
    trade is selected and no session exists. *)
Theorem consistent_active_session (app : App) :
  consistent (state app) ->
  (activeSession (state app) = None <-> sessions (state app) = []) /\
  (main_content_of app = EmptyState <->
   selectedTrade app = None /\ sessions (state app) = []).
Proof.
  intros [_ Hact].
  assert (H : activeSession (state app) = None
              <-> sessions (state app) = []).
  { split.
    - intros Hnone. destruct (activeSessionId (state app)) as [a|] eqn:Ea;
        trivial.
      apply in_map_iff in Hact. destruct Hact as (s & Hid & Hs).
      unfold activeSession in Hnone.
      pose proof (find_none _ _ Hnone s Hs) as Hf. simpl in Hf.
      rewrite Ea in Hf. simpl in Hf. rewrite Hid, String.eqb_refl in Hf.
      discriminate Hf.
    - intros Hnil. unfold activeSession. rewrite Hnil. reflexivity. }
  split; [exact H|].
  unfold main_content_of.
  destruct (selectedTrade app) as [t|].
  - split; [discriminate | intros [Hs _]; discriminate Hs].
  - destruct (activeSession (state app)) as [s|].
    + split; [discriminate|]. intros [_ Hnil]. apply H in Hnil.
      discriminate Hnil.
    + split; [|reflexivity]. intros _. split; trivial.
      apply H. reflexivity.
Qed.

Lemma consistent_active_session_witness :
  main_content_of (Sample.app_of Sample.journal) <> EmptyState.
Proof.
  intros H.
  apply (@consistent_active_session (Sample.app_of Sample.journal)) in H.
  - destruct H as [_ H]. discriminate H.
  - split; [|simpl; left; reflexivity].
    simpl. repeat constructor; simpl; intuition discriminate.
Defined.

(** ** Quick add and what is on screen *)

(** X1: when no session has a non-empty [activeSessionId], quick add
    changes nothing.  It alerts exactly when the quick-add button is
    hidden ([activeSessionId] null or empty); with the button shown, as
    it is for an id no session has, it does nothing and says nothing. *)
Theorem handleQuickAddTrade_no_session (app : App) (trade : Trade.t) :
  (forall s, In s (sessions (state app)) ->
             activeSessionId (state app) = Some (Session.id s) ->
             Session.id s = "") ->
  fst (handleQuickAddTrade app trade) = app /\
  (snd (handleQuickAddTrade app trade) = [Alert quick_add_message]
   <-> fab_shown app = false) /\
  (fab_shown app = true ->
   snd (handleQuickAddTrade app trade) = [] /\
   activeSession (state app) = None).
Proof.
  intros Hnone. unfold handleQuickAddTrade, fab_shown.
  destruct (falsy (activeSessionId (state app))) eqn:Ef; simpl.
  - repeat split; trivial; discriminate.
  - assert (Hact : activeSession (state app) = None).
    { apply activeSession_none. intros s Hs Ha.
      pose proof (Hnone s Hs Ha) as He. rewrite Ha, He in Ef.
      discriminate Ef. }
    unfold handleAddTrade. rewrite Hact.
    repeat split; trivial; discriminate.
Qed.

Lemma handleQuickAddTrade_no_session_witness :
  handleQuickAddTrade (Sample.app_of Sample.dangling) Sample.trade2
  = (Sample.app_of Sample.dangling, []) /\
  fab_shown (Sample.app_of Sample.dangling) = true /\
  main_content_of (Sample.app_of Sample.dangling) = EmptyState.
Proof.
  assert (H : forall s,
             In s (sessions (state (Sample.app_of Sample.dangling))) ->
             activeSessionId (state (Sample.app_of Sample.dangling))
             = Some (Session.id s) ->
             Session.id s = "").
  { simpl. intros s [<-|[<-|[]]] E; discriminate E. }
  destruct (@handleQuickAddTrade_no_session
              (Sample.app_of Sample.dangling) Sample.trade2 H)
    as (H1 & _ & H3).
  destruct (H3 eq_refl) as [H4 H5].
  split; [|split; [reflexivity|]].
  - rewrite (surjective_pairing (handleQuickAddTrade _ _)), H1, H4.
    reflexivity.
  - unfold main_content_of. rewrite H5. reflexivity.
Defined.

Lemma activeSession_created (app : App) (session : Session.t) :
  ~ In (Session.id session) (map Session.id (sessions (state app))) ->
  activeSession (state (handleCreateSession app session)) = Some session.
Proof.
  intros Hfresh. unfold activeSession. simpl.
  induction (sessions (state app)) as [|s l IH]; simpl.
  - rewrite String.eqb_refl. reflexivity.
  - simpl in Hfresh.
    destruct (String.eqb_spec (Session.id s) (Session.id session)) as [E|E].
    + elim Hfresh. left. exact E.
    + apply IH. intros Hin. apply Hfresh. right. exact Hin.
Qed.

(** X12: a session created under a new id while a trade report is open
    leaves the report on screen; an update sent from it, for a trade id
    the new session does not hold, changes no session and only replaces
    the selected trade. *)
Theorem update_from_open_report (app : App) (session : Session.t)
    (trade updatedTrade : Trade.t) :
  selectedTrade app = Some trade ->
  ~ In (Session.id session) (map Session.id (sessions (state app))) ->
  (forall t, In t (Session.trades session) ->
             Trade.id t <> Trade.id updatedTrade) ->
  let created := handleCreateSession app session in
  main_content_of created = TradeReport trade /\
  handleUpdateTrade created updatedTrade
  = {| state := state created; selectedTrade := Some updatedTrade |}.
Proof.
  intros Hsel Hfresh Hunknown created. split.
  - unfold main_content_of, created. simpl. rewrite Hsel. reflexivity.
  - rewrite (handleUpdateTrade_active _ _
               (activeSession_created app session Hfresh)).
    apply trade_handler_unchanged. intros s Hs Hid.
    apply update_trade_unknown. intros t Ht.
    unfold created in Hs. simpl in Hs.
    apply in_app_or in Hs. destruct Hs as [Hs|[<-|[]]].
    + elim Hfresh. rewrite <- Hid. apply in_map. exact Hs.
    + apply Hunknown. exact Ht.
Qed.

Lemma update_from_open_report_witness :
  handleUpdateTrade (handleCreateSession Cases.report_open Cases.wednesday)
                    Cases.edited
  = {| state := state (handleCreateSession Cases.report_open Cases.wednesday);
       selectedTrade := Some Cases.edited |}.
Proof.
  apply (@update_from_open_report Cases.report_open Cases.wednesday
           (Trade.Make "t1" [("symbol", VStr "ES")]) Cases.edited eq_refl).
  - simpl. intros [H|[]]. discriminate H.
  - simpl. intros t [].
Defined.

(** ** Import, case by case *)

Lemma has_sessions_array_cases (v : value) :
  has_sessions_array v <->
  match v with
  | VObj props =>
      match lookup "sessions" props with
      | Some (VArr _) => True
      | _ => False
      end
  | _ => False
  end.
Proof.
  split.
  - intros (props & items & -> & ->). exact I.
  - destruct v as [| | | | |props]; try contradiction.
    destruct (lookup "sessions" props) as [[| | | |items|]|] eqn:E;
      try contradiction.
    intros _. exists props, items. auto.
Qed.

Lemma handleImportData_effects (st : AppState) (text : string)
    (confirmed : bool) :
  handleImportData st (Some text) confirmed =
  match JSON.parse text with
  | None => [ConsoleError; Alert failure_message]
  | Some VNull => [ConsoleError; Alert failure_message]
  | Some (VObj props) =>
      match lookup "sessions" props with
      | Some (VArr _) => accepted st confirmed (VObj props)
      | _ => [Alert invalid_message]
      end
  | Some _ => [Alert invalid_message]
  end.
Proof.
  unfold handleImportData, onload_try, accepted.
  destruct (JSON.parse text) as [[|b|n|s|items|props]|]; try reflexivity.
  simpl.
  destruct (lookup "sessions" props) as [[|b|n|s|items|props']|];
    simpl; try reflexivity.
  - destruct b; reflexivity.
  - destruct (Z.eqb n 0); reflexivity.
  - destruct (String.eqb s ""); reflexivity.
  - destruct (0 <? length (sessions st)), confirmed; reflexivity.
Qed.

Ltac import_cases :=
  repeat match goal with
         | H : exists _, _ |- _ => destruct H
         | H : _ /\ _ |- _ => destruct H
         | H : _ \/ _ |- _ => destruct H
         | H : False |- _ => destruct H
         | H : _ = _ |- _ => discriminate H
         | H : Some _ = Some _ |- _ => injection H as H; subst
         end.






Lemma below_100 (P : nat -> bool) :
  forallb P (seq 0 100) = true -> forall n, n < 100 -> P n = true.
Proof.
  intros H n Hn. rewrite forallb_forall in H. apply H. apply in_seq. lia.
Qed.

Lemma pad_two_chars (n : nat) :
  n < 100 -> two_chars (padStart 2 "0" (String_of_nat n)) = true.
Proof.
  apply (below_100 (fun n => two_chars (padStart 2 "0" (String_of_nat n)))).
  vm_compute. reflexivity.
Qed.

Lemma pad_injective (n k : nat) :
  n < 100 -> k < 100 ->
  padStart 2 "0" (String_of_nat n) = padStart 2 "0" (String_of_nat k) ->
  n = k.
Proof.
  intros Hn Hk Heq.
  assert (H : forallb
                (fun n =>
                   forallb
                     (fun k =>
                        implb (String.eqb
                                 (padStart 2 "0" (String_of_nat n))
                                 (padStart 2 "0" (String_of_nat k)))
                              (n =? k))
                     (seq 0 100))
                (seq 0 100) = true)
    by (vm_compute; reflexivity).
  pose proof (@below_100 _ H n Hn) as H1. cbv beta in H1.
  pose proof (@below_100 _ H1 k Hk) as H2. cbv beta in H2.
  rewrite Heq, String.eqb_refl in H2. simpl in H2.
  apply Nat.eqb_eq. exact H2.
Qed.

Lemma to_uint_nonnil (n : nat) : Nat.to_uint n <> Decimal.Nil.
Proof.
  pose proof (DecimalNat.Unsigned.to_of (Nat.to_uint n)) as H.
  rewrite DecimalNat.Unsigned.of_to in H. rewrite H.
  unfold Decimal.unorm. destruct (Decimal.nzhead (Nat.to_uint n));
    discriminate.
Qed.

Lemma String_of_nat_injective (n k : nat) :
  String_of_nat n = String_of_nat k -> n = k.
Proof.
  unfold String_of_nat. intros H.
  apply DecimalNat.Unsigned.to_uint_inj.
  pose proof (NilZero.usu _ (to_uint_nonnil n)) as Hn.
  pose proof (NilZero.usu _ (to_uint_nonnil k)) as Hk.
  rewrite H in Hn. congruence.
Qed.

(** X15: for a month index below 12 and a day from 1 to 31 the name of
    a new session is two characters, a dot, two characters, a dot and
    the year, and two different dates never give the same name. *)
Theorem dateString_shape (getMonth getDate getFullYear : nat) :
  getMonth < 12 -> 1 <= getDate <= 31 ->
  (exists m1 m2 d1 d2,
      dateString getMonth getDate getFullYear
      = String m1 (String m2 (String "."
          (String d1 (String d2 (String "."
             (String_of_nat getFullYear))))))) /\
  (forall getMonth' getDate' getFullYear',
      getMonth' < 12 -> 1 <= getDate' <= 31 ->
      dateString getMonth' getDate' getFullYear'
      = dateString getMonth getDate getFullYear ->
      getMonth' = getMonth /\ getDate' = getDate /\
      getFullYear' = getFullYear).
Proof.
  intros Hm Hd.
  assert (Hshape : forall m d y, m < 12 -> 1 <= d <= 31 ->
            exists m1 m2 d1 d2,
              padStart 2 "0" (String_of_nat (m + 1))
                = String m1 (String m2 "") /\
              padStart 2 "0" (String_of_nat d) = String d1 (String d2 "") /\
              dateString m d y
              = String m1 (String m2 (String "."
                  (String d1 (String d2 (String "." (String_of_nat y))))))).
  { intros m d y Hm' Hd'. unfold dateString.
    pose proof (@pad_two_chars (m + 1) ltac:(lia)) as H1.
    pose proof (@pad_two_chars d ltac:(lia)) as H2.
    destruct (padStart 2 "0" (String_of_nat (m + 1)))
      as [|m1 [|m2 [|]]]; try discriminate H1.
    destruct (padStart 2 "0" (String_of_nat d))
      as [|d1 [|d2 [|]]]; try discriminate H2.
    exists m1, m2, d1, d2. auto. }
  split.
  - destruct (Hshape getMonth getDate getFullYear Hm Hd)
      as (m1 & m2 & d1 & d2 & _ & _ & H). eauto.
  - intros m' d' y' Hm' Hd' Heq.
    destruct (Hshape getMonth getDate getFullYear Hm Hd)
      as (m1 & m2 & d1 & d2 & Hpm & Hpd & H).
    destruct (Hshape m' d' y' Hm' Hd')
      as (m1' & m2' & d1' & d2' & Hpm' & Hpd' & H').
    rewrite H, H' in Heq. injection Heq as -> -> -> -> Hy.
    rewrite <- Hpm in Hpm'. rewrite <- Hpd in Hpd'.
    apply pad_injective in Hpm'; try lia.
    apply pad_injective in Hpd'; try lia.
    apply String_of_nat_injective in Hy. lia.
Qed.

Lemma dateString_shape_witness :
  dateString 10 2 2026 = "11.02.2026" /\
  forall getMonth getDate getFullYear,
    getMonth < 12 -> 1 <= getDate <= 31 ->
    dateString getMonth getDate getFullYear = dateString 10 2 2026 ->
    getMonth = 10 /\ getDate = 2 /\ getFullYear = 2026.
Proof.
  split; [reflexivity|].
  apply (@dateString_shape 10 2 2026); lia.
Defined.
